(** * Giphy plugin for Mattermost: command dispatcher and configuration holder

    A shallow embedding of [plugin.go]: the slash-command dispatcher
    ([ExecuteCommand] and its two handlers), the keyword extraction, the
    response template, the error wrapper and the life-cycle hooks.

    Go strings are byte sequences: they are [string] here (a list of 8-bit
    [ascii]).  Calls that leave the plugin (the host API, the GIF provider)
    are nodes of a program tree, so that "the provider is never called" is a
    statement about the tree and not about a particular provider. *)

From Stdlib Require Import String Ascii List Bool Arith ZArith Lia.
Import ListNotations.
Local Open Scope list_scope.
Local Open Scope string_scope.

(** ** The parts of Go's [strings] and [fmt] packages the plugin uses *)

Module GoStrings.

(** [strings.HasPrefix(s, prefix)] *)
Definition HasPrefix (s pre : string) : bool := String.prefix pre s.

(** [s[n:]] for [n <= len(s)] *)
Fixpoint drop (n : nat) (s : string) : string :=
  match n, s with
  | O, _ => s
  | S _, EmptyString => EmptyString
  | S k, String _ s' => drop k s'
  end.

(** [s[:n]] for [n <= len(s)] *)
Fixpoint take (n : nat) (s : string) : string :=
  match n, s with
  | O, _ => EmptyString
  | S _, EmptyString => EmptyString
  | S k, String c s' => String c (take k s')
  end.

(** [strings.Index(s, substr)]: byte offset of the first occurrence. *)
Definition Index (s substr : string) : option nat := String.index 0 substr s.

(** The loop of [strings.Replace]: at most [n] times, find the next
    occurrence of [old] in what is left of [s], copy what precedes it, write
    [new] and go on after the occurrence. *)
Fixpoint replace_loop (n : nat) (s old new : string) : string :=
  match n with
  | O => s
  | S k =>
      match Index s old with
      | None => s
      | Some j => take j s ++ new ++ replace_loop k (drop (j + String.length old) s) old new
      end
  end.

(** [strings.Replace(s, old, new, n)] for a non-empty [old]: the first [n]
    non-overlapping occurrences are replaced, all of them when [n < 0].  Go
    clamps [n] to the number of occurrences; here the loop stops at the first
    failed search, and [length s] bounds the number of occurrences.  (With an
    empty [old] Go inserts [new] at rune boundaries; the plugin never does
    that, its [old] starts with a slash, and that case is left as the
    identity.) *)
Definition Replace (s old new : string) (n : Z) : string :=
  if (String.eqb old new || (n =? 0)%Z)%bool then s
  else match old with
       | EmptyString => s
       | String _ _ =>
           replace_loop (if (n <? 0)%Z then String.length s else Z.to_nat n) s old new
       end.

(** Membership of a byte in an ASCII cutset. *)
Fixpoint inCutset (c : ascii) (cutset : string) : bool :=
  match cutset with
  | EmptyString => false
  | String d rest => (Ascii.eqb c d || inCutset c rest)%bool
  end.

(** [strings.TrimLeft(s, cutset)] for an ASCII cutset (byte-wise). *)
Fixpoint TrimLeft (s cutset : string) : string :=
  match s with
  | EmptyString => EmptyString
  | String c s' => if inCutset c cutset then TrimLeft s' cutset else s
  end.

(** [strings.TrimRight(s, cutset)] for an ASCII cutset (byte-wise). *)
Fixpoint TrimRight (s cutset : string) : string :=
  match s with
  | EmptyString => EmptyString
  | String c s' =>
      match TrimRight s' cutset with
      | EmptyString => if inCutset c cutset then EmptyString else String c EmptyString
      | r => String c r
      end
  end.

(** [strings.Trim(s, cutset)] for an ASCII cutset. *)
Definition Trim (s cutset : string) : string := TrimRight (TrimLeft s cutset) cutset.

(** A [strings.Replacer] built by [strings.NewReplacer(old1, new1, ...)]: the
    pairs in argument order. *)
Definition Replacer : Type := list (string * string).

Definition NewReplacer (oldnew : list (string * string)) : Replacer := oldnew.

(** The pair that applies at the head of [s]: comparisons are done in argument
    order, so the first pair whose [old] is a prefix of [s]. *)
Fixpoint lookup (r : Replacer) (s : string) : option (string * string) :=
  match r with
  | [] => None
  | (old, new) :: rest => if String.prefix old s then Some (old, new) else lookup rest s
  end.

(** The scan of the generic replacer, for non-empty [old] strings:
    replacements are made in the order they appear in the target, without
    overlap, and what has been written is not looked at again.  [skip] is the
    number of bytes of the current match still to be jumped over
    ([i += keylen] in Go). *)
Fixpoint replacer_scan (r : Replacer) (skip : nat) (s : string) : string :=
  match s with
  | EmptyString => EmptyString
  | String c s' =>
      match skip with
      | S k => replacer_scan r k s'
      | O =>
          match lookup r s with
          | Some (old, new) => new ++ replacer_scan r (String.length old - 1) s'
          | None => String c (replacer_scan r 0 s')
          end
      end
  end.

(** [r.Replace(s)] *)
Definition Replacer_Replace (r : Replacer) (s : string) : string := replacer_scan r 0 s.

(** [strings.HasSuffix(s, suffix)] *)
Definition HasSuffix (s suf : string) : bool :=
  Nat.leb (String.length suf) (String.length s)
  && String.eqb (drop (String.length s - String.length suf) s) suf.

End GoStrings.

Import GoStrings.

(** ** The host's data types ([model] and [plugin] packages of the server) *)

(** A Go [error] value, by the text its [Error()] method returns; the [nil]
    error is [None] of [option error]. *)
Definition error : Type := string.

(** [model.Command], the fields the plugin fills in. *)
Record Command : Type := mkCommand {
  Trigger : string;
  Description : string;
  DisplayName : string;
  AutoComplete : bool;
  AutoCompleteDesc : string;
  AutoCompleteHint : string
}.

(** [model.CommandArgs]: the command line and the caller's identifiers.  The
    field [Command] of the source is [Command_] here, the name being taken by
    the record above. *)
Record CommandArgs : Type := mkCommandArgs {
  UserId : string;
  ChannelId : string;
  TeamId : string;
  Command_ : string
}.

Definition COMMAND_RESPONSE_TYPE_IN_CHANNEL : string := "in_channel".
Definition COMMAND_RESPONSE_TYPE_EPHEMERAL : string := "ephemeral".

(** [model.CommandResponse], the fields the plugin fills in. *)
Record CommandResponse : Type := mkCommandResponse {
  ResponseType : string;
  Text : string
}.

(** [model.AppError] *)
Record AppError : Type := mkAppError {
  Id : string;
  Message : string;
  DetailedError : string;
  StatusCode : Z;
  Where : string
}.

(** [model.NewAppError(where, id, params, details, status)] with [nil]
    parameters: the message is the identifier, no translation being installed
    in the plugin's process. *)
Definition NewAppError (where_ id : string) (details : string) (status : Z) : AppError :=
  {| Id := id; Message := id; DetailedError := details; StatusCode := status; Where := where_ |}.

(** [http.StatusBadRequest] *)
Definition StatusBadRequest : Z := 400.

(** A [plugin.API] value: the handle of the host the plugin talks to. *)
Inductive plugin_API : Type := HostAPI (handle : nat).

(** A value of the [gifProvider] interface: the handle of the client of the
    remote search API. *)
Inductive gifProviderI : Type := Provider (handle : nat).

(** [GiphyPluginConfiguration] *)
Record GiphyPluginConfiguration : Type := mkConfiguration {
  Rating : string;
  Language : string;
  Rendition : string;
  ResponseTemplate : string;
  APIKey : string
}.

(** [var configuration GiphyPluginConfiguration]: the zero value. *)
Definition zeroConfiguration : GiphyPluginConfiguration :=
  {| Rating := ""; Language := ""; Rendition := ""; ResponseTemplate := ""; APIKey := "" |}.

(** [GiphyPlugin].  An interface field may be [nil], and an [atomic.Value]
    may never have been stored to: both are [None]. *)
Record GiphyPlugin : Type := mkPlugin {
  api : option plugin_API;
  configuration : option GiphyPluginConfiguration;
  gifProvider : option gifProviderI;
  enabled : bool
}.

(** ** Programs: calls that leave the plugin, and the plugin's state *)

(** The calls the plugin makes on its collaborators, indexed by the type of
    what comes back.  [LoadPluginConfiguration] receives a pointer to a
    struct and fills it in: it takes the struct's content and answers with
    the content afterwards. *)
Inductive Call : Type -> Type :=
| RegisterCommand (a : plugin_API) (c : Command) : Call (option error)
| LoadPluginConfiguration (a : plugin_API) (dest : GiphyPluginConfiguration) :
    Call (GiphyPluginConfiguration * option error)
| getGifURL (g : gifProviderI) (config : GiphyPluginConfiguration) (keywords : string) :
    Call (string * option error)
| getMultipleGifsURL (g : gifProviderI) (config : GiphyPluginConfiguration) (keywords : string) :
    Call (list string * option error).

(** A program returns, panics (a [nil] dereference, a failed type assertion),
    or makes a call and goes on with its answer. *)
Inductive Prog (A : Type) : Type :=
| Ret (a : A)
| Panic
| Do (R : Type) (c : Call R) (k : R -> Prog A).

Arguments Ret {A} a.
Arguments Panic {A}.
Arguments Do {A R} c k.

Fixpoint bindP {A B : Type} (m : Prog A) (f : A -> Prog B) : Prog B :=
  match m with
  | Ret a => f a
  | Panic => Panic
  | Do c k => Do c (fun r => bindP (k r) f)
  end.

(** A method with receiver [p *GiphyPlugin]: a program over the plugin's
    fields. *)
Definition M (A : Type) : Type := GiphyPlugin -> Prog (A * GiphyPlugin).

Definition ret {A : Type} (a : A) : M A := fun p => Ret (a, p).

Definition bind {A B : Type} (m : M A) (f : A -> M B) : M B :=
  fun p => bindP (m p) (fun ap => f (fst ap) (snd ap)).

Definition get : M GiphyPlugin := fun p => Ret (p, p).

Definition put (q : GiphyPlugin) : M unit := fun _ => Ret (tt, q).

Definition panic {A : Type} : M A := fun _ => Panic.

Definition call {R : Type} (c : Call R) : M R := fun p => Do c (fun r => Ret (r, p)).

Declare Scope plugin_scope.
Delimit Scope plugin_scope with plugin.
Notation "x <- m ;; k" := (bind m (fun x => k))
  (at level 61, m at next level, right associativity) : plugin_scope.
Notation "m ;;; k" := (bind m (fun _ => k))
  (at level 61, right associativity) : plugin_scope.
Local Open Scope plugin_scope.

(** One call made during a run, with what it was asked. *)
Inductive Invocation : Type :=
| Invoked (R : Type) (c : Call R).

Arguments Invoked {R} c.

Definition isProviderCall (i : Invocation) : bool :=
  match i with
  | Invoked (getGifURL _ _ _) => true
  | Invoked (getMultipleGifsURL _ _ _) => true
  | Invoked _ => false
  end.

(** The collaborators, as far as a run needs them: an answer to each call,
    from a state [W] of the outside world that the call may change. *)
Definition World (W : Type) : Type := forall R : Type, Call R -> W -> R * W.

(** Result of a run: the value returned ([None] after a panic), the outside
    world afterwards and the calls made, in order. *)
Fixpoint run {W A : Type} (h : World W) (t : Prog A) (w : W) : option A * W * list Invocation :=
  match t with
  | Ret a => (Some a, w, [])
  | Panic => (None, w, [])
  | Do c k =>
      let (r, w') := h _ c w in
      let '(o, w'', l) := run h (k r) w' in
      (o, w'', Invoked c :: l)
  end.

(** ** The plugin *)

(** Triggers used to define slash commands *)
Definition triggerGif : string := "gif".
Definition triggerGifs : string := "gifs".

Definition setApi (a : option plugin_API) (p : GiphyPlugin) : GiphyPlugin :=
  {| api := a; configuration := configuration p;
     gifProvider := gifProvider p; enabled := enabled p |}.

Definition setEnabled (b : bool) (p : GiphyPlugin) : GiphyPlugin :=
  {| api := api p; configuration := configuration p;
     gifProvider := gifProvider p; enabled := b |}.

(** [p.configuration.Store(&c)] *)
Definition storeConfiguration (c : GiphyPluginConfiguration) (p : GiphyPlugin) : GiphyPlugin :=
  {| api := api p; configuration := Some c;
     gifProvider := gifProvider p; enabled := enabled p |}.

Definition modify (f : GiphyPlugin -> GiphyPlugin) : M unit :=
  p <- get ;; put (f p).

(** [appError]: every error of the plugin is built here. *)
Definition appError (message : string) (err : option error) : AppError :=
  let errorMessage := match err with
                      | Some e => e
                      | None => ""
                      end in
  NewAppError "Giphy Plugin" message errorMessage StatusBadRequest.

Definition getCommandKeywords (commandLine trigger : string) : string :=
  Trim (Replace commandLine ("/" ++ trigger) "" 1) " ".

Definition viaGiphy : string :=
  "via ![giphy](https://giphy.com/static/img/favicon.png)".

Definition applyResponseTemplate (template keywords gifURL : string) : string :=
  let r := NewReplacer [("##KEYWORDS##", keywords);
                        ("##GIF_URL##", gifURL);
                        ("##VIA_GIPHY##", viaGiphy)] in
  Replacer_Replace r template.

(** [p.config()]: the type assertion on a value never stored panics. *)
Definition config : M GiphyPluginConfiguration :=
  p <- get ;;
  match configuration p with
  | Some c => ret c
  | None => panic
  end.

(** [OnConfigurationChange] handles plugin configuration changes *)
Definition OnConfigurationChange : M (option error) :=
  p <- get ;;
  match api p with
  | None => panic
  | Some a =>
      r <- call (LoadPluginConfiguration a zeroConfiguration) ;;
      modify (storeConfiguration (fst r)) ;;;
      ret (snd r)
  end.

Definition commandGif : Command :=
  {| Trigger := triggerGif;
     Description := "Posts a Giphy GIF that matches the keyword(s)";
     DisplayName := "Giphy command";
     AutoComplete := true;
     AutoCompleteDesc := "Posts a Giphy GIF that matches the keyword(s)";
     AutoCompleteHint := "happy kitty" |}.

Definition commandGifs : Command :=
  {| Trigger := triggerGifs;
     Description := "Shows a preview of 10 GIFS matching the keyword(s)";
     DisplayName := "Giphy preview command";
     AutoComplete := true;
     AutoCompleteDesc := "Shows a preview of 10 GIFS matching the keyword(s)";
     AutoCompleteHint := "happy kitty" |}.

(** [OnActivate] register the plugin commands *)
Definition OnActivate (a : option plugin_API) : M (option error) :=
  modify (setApi a) ;;;
  modify (setEnabled true) ;;;
  match a with
  | None => panic
  | Some h =>
      err <- call (RegisterCommand h commandGif) ;;
      match err with
      | Some e => ret (Some e)
      | None =>
          err <- call (RegisterCommand h commandGifs) ;;
          match err with
          | Some e => ret (Some e)
          | None => OnConfigurationChange
          end
      end
  end.

(** [OnDeactivate] handles plugin deactivation *)
Definition OnDeactivate : M (option error) :=
  modify (setEnabled false) ;;;
  ret None.

(** What a command handler returns: a pointer to a [model.CommandResponse]
    and a pointer to a [model.AppError], either of which may be [nil]. *)
Definition Reply : Type := (option CommandResponse * option AppError)%type.

(** [executeCommandGif] returns a public post containing a matching GIF *)
Definition executeCommandGif (command : string) : M Reply :=
  let keywords := getCommandKeywords command triggerGif in
  cfg <- config ;;
  p <- get ;;
  match gifProvider p with
  | None => panic
  | Some g =>
      r <- call (getGifURL g cfg keywords) ;;
      match snd r with
      | Some err => ret (None, Some (appError "Unable to get GIF URL" (Some err)))
      | None =>
          let text := applyResponseTemplate (ResponseTemplate cfg) keywords (fst r) in
          ret (Some {| ResponseType := COMMAND_RESPONSE_TYPE_IN_CHANNEL; Text := text |}, None)
      end
  end.

(** The tab character. *)
Definition tab : string := String (ascii_of_nat 9) EmptyString.

(** [fmt.Sprintf(" *Suggestions for '%s':*", keywords)] *)
Definition suggestionsHeader (keywords : string) : string :=
  " *Suggestions for '" ++ keywords ++ "':*".

(** [fmt.Sprintf("[![GIF for '%s'](%s)](%s)", keywords, url, url)] *)
Definition gifLink (keywords url : string) : string :=
  "[![GIF for '" ++ keywords ++ "'](" ++ url ++ ")](" ++ url ++ ")".

(** The body of [for i, url := range gifURLs]: the index and the text so
    far, before and after one URL. *)
Definition gifsLoopBody (keywords : string) (st : nat * string) (url : string) : nat * string :=
  let (i, text) := st in
  let text := if Nat.ltb 0 i then text ++ tab else text in
  (S i, text ++ gifLink keywords url).

Definition gifsText (keywords : string) (gifURLs : list string) : string :=
  snd (fold_left (gifsLoopBody keywords) gifURLs (O, suggestionsHeader keywords)).

(** [executeCommandGifs] returns a private post containing a list of matching GIFs *)
Definition executeCommandGifs (command : string) : M Reply :=
  let keywords := getCommandKeywords command triggerGifs in
  p <- get ;;
  cfg <- config ;;
  match gifProvider p with
  | None => panic
  | Some g =>
      r <- call (getMultipleGifsURL g cfg keywords) ;;
      match snd r with
      | Some err => ret (None, Some (appError "Unable to get GIF URL" (Some err)))
      | None =>
          let text := gifsText keywords (fst r) in
          ret (Some {| ResponseType := COMMAND_RESPONSE_TYPE_EPHEMERAL; Text := text |}, None)
      end
  end.

(** [ExecuteCommand] returns a post that displays a GIF choosen using Giphy *)
Definition ExecuteCommand (args : CommandArgs) : M Reply :=
  p <- get ;;
  if negb (enabled p) then
    ret (None, Some (appError "Cannot execute command while the plugin is disabled." None))
  else
    match api p with
    | None => ret (None, Some (appError "Cannot access the plugin API." None))
    | Some _ =>
        if HasPrefix (Command_ args) ("/" ++ triggerGifs) then
          executeCommandGifs (Command_ args)
        else if HasPrefix (Command_ args) ("/" ++ triggerGif) then
          executeCommandGif (Command_ args)
        else
          ret (None, Some (appError ("Command trigger " ++ Command_ args
                                     ++ "is not supported by this plugin.") None))
    end.

(** [main]: the plugin value handed to the host. *)
Definition mainPlugin : GiphyPlugin :=
  {| api := None; configuration := None;
     gifProvider := Some (Provider 0); enabled := false |}.

(** The trigger of a command line in the sense of the specification's
    glossary, "the leading token of a slash command": what stands between the
    leading slash and the first space.  The plugin does not compute it; it is
    here to compare the dispatcher's prefix tests with it. *)
Fixpoint leadingToken (s : string) : string :=
  match s with
  | EmptyString => EmptyString
  | String c s' => if Ascii.eqb c " "%char then EmptyString else String c (leadingToken s')
  end.

Definition spec_trigger (commandLine : string) : string :=
  match commandLine with
  | String "/"%char rest => leadingToken rest
  | _ => leadingToken commandLine
  end.

Definition knownTrigger (t : string) : bool :=
  (String.eqb t triggerGif || String.eqb t triggerGifs)%bool.

(** ** Goroutines around the configuration holder

    The host may run a reload while commands are being served.  The holder
    [p.configuration] is an [atomic.Value]: its [Load] and [Store] are single
    steps.  Everything else is a step per field: the host fills the struct
    behind the pointer it was given field by field, and a command (or the
    provider it hands the pointer to) reads the fields it needs one at a time.
    Goroutines interleave at that grain. *)

Module AtomicConfig.

Inductive Field : Type := FRating | FLanguage | FRendition | FResponseTemplate | FAPIKey.

Definition getField (f : Field) (c : GiphyPluginConfiguration) : string :=
  match f with
  | FRating => Rating c
  | FLanguage => Language c
  | FRendition => Rendition c
  | FResponseTemplate => ResponseTemplate c
  | FAPIKey => APIKey c
  end.

Definition setField (f : Field) (x : string) (c : GiphyPluginConfiguration) : GiphyPluginConfiguration :=
  match f with
  | FRating => mkConfiguration x (Language c) (Rendition c) (ResponseTemplate c) (APIKey c)
  | FLanguage => mkConfiguration (Rating c) x (Rendition c) (ResponseTemplate c) (APIKey c)
  | FRendition => mkConfiguration (Rating c) (Language c) x (ResponseTemplate c) (APIKey c)
  | FResponseTemplate => mkConfiguration (Rating c) (Language c) (Rendition c) x (APIKey c)
  | FAPIKey => mkConfiguration (Rating c) (Language c) (Rendition c) (ResponseTemplate c) x
  end.

(** What [LoadPluginConfiguration] leaves in the struct when it copies the
    fields [fs] of the persisted settings [src], in that order (all five when
    it succeeds, fewer when decoding fails on the way). *)
Definition writeFields (src : GiphyPluginConfiguration) (fs : list Field)
    (c : GiphyPluginConfiguration) : GiphyPluginConfiguration :=
  fold_left (fun acc f => setField f (getField f src) acc) fs c.

(** A goroutine inside [OnConfigurationChange] or inside a command handler.
    - [ReloadStart src fs]: [OnConfigurationChange] was called; the host is
      going to write the fields [fs] of [src].
    - [ReloadLoading l src done todo]: [var configuration] lives at [l];
      [done] have been written (latest first), [todo] are to come.
    - [ReadStart fs]: a handler is about to call [p.config()] and will then
      read the fields [fs] through the pointer.
    - [Reading l todo seen]: [p.config()] returned the pointer [l]; [seen]
      is what was read so far.
    - [ReadPanicked]: [p.config()] found nothing stored. *)
Inductive Goroutine : Type :=
| Finished
| ReloadStart (src : GiphyPluginConfiguration) (fs : list Field)
| ReloadLoading (l : nat) (src : GiphyPluginConfiguration) (done todo : list Field)
| ReadStart (fs : list Field)
| Reading (l : nat) (todo : list Field) (seen : list (Field * string))
| ReadPanicked.

(** Heap of configuration structs, the holder, the goroutines, and a log of
    every [Store]: the pointer stored and what the struct held then. *)
Record Sys : Type := mkSys {
  heap : nat -> GiphyPluginConfiguration;
  next : nat;
  holder : option nat;
  pool : nat -> Goroutine;
  stored : list (nat * GiphyPluginConfiguration)
}.

Definition upd {A : Type} (m : nat -> A) (i : nat) (x : A) : nat -> A :=
  fun j => if Nat.eqb j i then x else m j.

(** One step of goroutine [i]. *)
Definition step (i : nat) (s : Sys) : Sys :=
  match pool s i with
  | ReloadStart src fs =>
      (* var configuration GiphyPluginConfiguration *)
      mkSys (upd (heap s) (next s) zeroConfiguration) (S (next s)) (holder s)
            (upd (pool s) i (ReloadLoading (next s) src [] fs)) (stored s)
  | ReloadLoading l src done (f :: todo) =>
      (* the host writes one field through the pointer *)
      mkSys (upd (heap s) l (setField f (getField f src) (heap s l))) (next s) (holder s)
            (upd (pool s) i (ReloadLoading l src (f :: done) todo)) (stored s)
  | ReloadLoading l src done [] =>
      (* p.configuration.Store(&configuration) *)
      mkSys (heap s) (next s) (Some l)
            (upd (pool s) i Finished) ((l, heap s l) :: stored s)
  | ReadStart fs =>
      (* p.configuration.Load().( *GiphyPluginConfiguration) *)
      match holder s with
      | Some l => mkSys (heap s) (next s) (holder s) (upd (pool s) i (Reading l fs [])) (stored s)
      | None => mkSys (heap s) (next s) (holder s) (upd (pool s) i ReadPanicked) (stored s)
      end
  | Reading l (f :: todo) seen =>
      (* config.Field *)
      mkSys (heap s) (next s) (holder s)
            (upd (pool s) i (Reading l todo ((f, getField f (heap s l)) :: seen))) (stored s)
  | Reading _ [] _ => s
  | Finished => s
  | ReadPanicked => s
  end.

(** A schedule names the goroutine that moves at each step. *)
Definition exec (schedule : list nat) (s : Sys) : Sys :=
  fold_left (fun acc i => step i acc) schedule s.

(** No goroutine is half-way through a reload or a read. *)
Definition fresh (g : Goroutine) : bool :=
  match g with
  | Finished | ReloadStart _ _ | ReadStart _ => true
  | _ => false
  end.

(** The plugin before [OnActivate]: nothing stored yet. *)
Definition start (threads : nat -> Goroutine) : Sys :=
  mkSys (fun _ => zeroConfiguration) 0 None threads [].

(** What holds of every state the goroutines can reach from [start threads]:
    - a struct whose pointer was stored is allocated, still holds what it held
      then, and that is what one whole reload wrote into a zero-valued struct;
    - a reload that has not started is as it was given;
    - the struct a reload is filling is allocated, was never stored, and holds
      the fields written so far;
    - no two reloads fill the same struct;
    - the holder has a pointer that was stored, the latest one;
    - what a reader has seen are fields of the struct stored under the
      pointer it loaded. *)
Record Inv (threads : nat -> Goroutine) (s : Sys) : Prop := mkInv {
  inv_stored : forall l v, In (l, v) (stored s) ->
    l < next s /\ heap s l = v
    /\ exists j src fs, threads j = ReloadStart src fs
                        /\ v = writeFields src fs zeroConfiguration;
  inv_start : forall i src fs, pool s i = ReloadStart src fs -> threads i = ReloadStart src fs;
  inv_loading : forall i l src done todo,
    pool s i = ReloadLoading l src done todo ->
    l < next s /\ (forall v, ~ In (l, v) (stored s))
    /\ heap s l = writeFields src (rev done) zeroConfiguration
    /\ threads i = ReloadStart src (rev done ++ todo);
  inv_owner : forall i j l src done todo src' done' todo',
    pool s i = ReloadLoading l src done todo ->
    pool s j = ReloadLoading l src' done' todo' -> i = j;
  inv_holder : forall l, holder s = Some l -> exists v, In (l, v) (stored s);
  inv_latest : holder s = match stored s with
                          | [] => None
                          | (l, _) :: _ => Some l
                          end;
  inv_reading : forall i l todo seen,
    pool s i = Reading l todo seen ->
    exists v, In (l, v) (stored s) /\ forall f x, In (f, x) seen -> x = getField f v
}.

(** The five fields, in the order of the struct. *)
Definition allFields : list Field :=
  [FRating; FLanguage; FRendition; FResponseTemplate; FAPIKey].

(** Two reloads and a command: goroutine 0 loads the first settings,
    goroutine 2 the second ones, goroutine 1 reads the rating and the API
    key. *)
Definition settings1 : GiphyPluginConfiguration :=
  mkConfiguration "g" "en" "fixed_height" "##GIF_URL##" "key-1".

Definition settings2 : GiphyPluginConfiguration :=
  mkConfiguration "pg-13" "fr" "original" "##KEYWORDS##" "key-2".

Definition threeGoroutines (i : nat) : Goroutine :=
  match i with
  | 0 => ReloadStart settings1 allFields
  | 1 => ReadStart [FRating; FAPIKey]
  | 2 => ReloadStart settings2 allFields
  | _ => Finished
  end.

(** The first reload runs to its end, the command loads the pointer, and the
    second reload runs between and around the command's two reads. *)
Definition reloadBetweenReads : list nat :=
  [0; 0; 0; 0; 0; 0; 0; 1; 2; 2; 2; 1; 2; 2; 2; 2; 1].

(** What [p.configuration.Load()] would return in this state: the content of
    the struct the holder points to, nothing when the holder is empty. *)
Definition view (s : Sys) : option GiphyPluginConfiguration :=
  match holder s with
  | Some l => Some (heap s l)
  | None => None
  end.

(** The pairs a reader has seen after reading the fields [fs], in that
    order, of the struct [c]: the latest first. *)
Definition fieldsRead (c : GiphyPluginConfiguration) (fs : list Field) : list (Field * string) :=
  rev (map (fun f => (f, getField f c)) fs).

(** The reader loads while the second reload is half-way, and reads after
    that reload has stored. *)
Definition loadBeforeStore : list nat := [0; 0; 0; 0; 0; 0; 0; 2; 2; 2].
Definition storeThenReads : list nat := [2; 2; 2; 2; 1; 1].

(** The reader loads after the second reload has stored. *)
Definition loadAfterStore : list nat := [0; 0; 0; 0; 0; 0; 0; 2; 2; 2; 2; 2; 2; 2].

End AtomicConfig.

(** ** Vocabulary of the statements *)

(** [n] spaces. *)
Fixpoint spaces (n : nat) : string :=
  match n with
  | O => EmptyString
  | S k => String " "%char (spaces k)
  end.

(** The three placeholders of the response template. *)
Inductive Placeholder : Type := KEYWORDS | GIF_URL | VIA_GIPHY.

Definition token (ph : Placeholder) : string :=
  match ph with
  | KEYWORDS => "##KEYWORDS##"
  | GIF_URL => "##GIF_URL##"
  | VIA_GIPHY => "##VIA_GIPHY##"
  end.

Definition value (keywords gifURL : string) (ph : Placeholder) : string :=
  match ph with
  | KEYWORDS => keywords
  | GIF_URL => gifURL
  | VIA_GIPHY => viaGiphy
  end.

(** A template read as a sequence of literal bytes and placeholders. *)
Inductive Piece : Type :=
| Lit (c : ascii)
| Tok (ph : Placeholder).

(** The template a sequence of pieces spells. *)
Fixpoint render (ps : list Piece) : string :=
  match ps with
  | [] => EmptyString
  | Lit c :: rest => String c (render rest)
  | Tok ph :: rest => token ph ++ render rest
  end.

(** The same sequence with every placeholder replaced, once, by its value and
    every literal byte kept. *)
Fixpoint expand (keywords gifURL : string) (ps : list Piece) : string :=
  match ps with
  | [] => EmptyString
  | Lit c :: rest => String c (expand keywords gifURL rest)
  | Tok ph :: rest => value keywords gifURL ph ++ expand keywords gifURL rest
  end.

(** Some placeholder starts at the head of [s]. *)
Definition startsWithToken (s : string) : bool :=
  (String.prefix (token KEYWORDS) s || String.prefix (token GIF_URL) s
   || String.prefix (token VIA_GIPHY) s)%bool.

(** A reading is leftmost when no placeholder starts at a byte it takes for a
    literal: going from left to right, no occurrence is passed over. *)
Fixpoint leftmost (ps : list Piece) : bool :=
  match ps with
  | [] => true
  | Lit c :: rest => (negb (startsWithToken (render ps)) && leftmost rest)%bool
  | Tok _ :: rest => leftmost rest
  end.

(** No byte of [u] is one of [bytes]. *)
Fixpoint noneOf (bytes u : string) : bool :=
  match u with
  | EmptyString => true
  | String c u' => (negb (inCutset c bytes) && noneOf bytes u')%bool
  end.

(** No byte of [s] is the number sign. *)
Fixpoint noHash (s : string) : bool :=
  match s with
  | EmptyString => true
  | String c s' => (negb (Ascii.eqb c "#"%char) && noHash s')%bool
  end.

(** A property of every value a program can return, whatever the answers to
    its calls. *)
Fixpoint allReturns {A : Type} (P : A -> Prop) (t : Prog A) : Prop :=
  match t with
  | Ret a => P a
  | Panic => True
  | Do c k => forall r, allReturns P (k r)
  end.

(** The program makes at most [n] calls, whatever the answers. *)
Fixpoint atMostCalls {A : Type} (n : nat) (t : Prog A) : Prop :=
  match t with
  | Ret _ => True
  | Panic => True
  | Do c k =>
      match n with
      | O => False
      | S m => forall r, atMostCalls m (k r)
      end
  end.

(** The last byte of a string, if it has one. *)
Fixpoint lastByte (s : string) : option ascii :=
  match s with
  | EmptyString => None
  | String c EmptyString => Some c
  | String _ s' => lastByte s'
  end.

(** A property of the first call of a program and of what follows it. *)
Definition onFirstCall {A : Type}
    (P : forall R : Type, Call R -> (R -> Prog A) -> Prop) (t : Prog A) : Prop :=
  match t with
  | Do c k => P _ c k
  | _ => True
  end.

(** The error part of the answer to a call. *)
Definition answerError {R : Type} (c : Call R) : R -> option error :=
  match c in Call T return T -> option error with
  | RegisterCommand _ _ => fun r => r
  | LoadPluginConfiguration _ _ => fun r => snd r
  | getGifURL _ _ _ => fun r => snd r
  | getMultipleGifsURL _ _ _ => fun r => snd r
  end.

(** The four messages of the plugin's errors. *)
Definition msgDisabled : string := "Cannot execute command while the plugin is disabled.".
Definition msgNoAPI : string := "Cannot access the plugin API.".
Definition msgProvider : string := "Unable to get GIF URL".
Definition msgUnsupported (commandLine : string) : string :=
  "Command trigger " ++ commandLine ++ "is not supported by this plugin.".

(** The reading of "an unrecognized trigger is always rejected" by the
    trigger as the leading token: whatever the plugin's state, a command line
    whose leading token is neither trigger gets the unsupported-command error
    without any call. *)
Definition unrecognized_token_always_rejected : Prop :=
  forall (args : CommandArgs) (p : GiphyPlugin),
    knownTrigger (spec_trigger (Command_ args)) = false ->
    ExecuteCommand args p
    = Ret ((None, Some (appError (msgUnsupported (Command_ args)) None)), p).

(** The configuration a plugin holds, the zero value if it holds none. *)
Definition configurationOf (p : GiphyPlugin) : GiphyPluginConfiguration :=
  match configuration p with
  | Some c => c
  | None => zeroConfiguration
  end.

(** A plugin that was activated and configured. *)
Definition readyPlugin (a : plugin_API) (cfg : GiphyPluginConfiguration) (g : gifProviderI) : GiphyPlugin :=
  {| api := Some a; configuration := Some cfg; gifProvider := Some g; enabled := true |}.

(** A provider that finds "http://x/y.gif" for every request, in a world
    that counts the calls. *)
Definition countingWorld : World nat :=
  fun R c =>
    match c in Call T return nat -> T * nat with
    | RegisterCommand _ _ => fun n => (None, S n)
    | LoadPluginConfiguration _ d => fun n => ((d, None), S n)
    | getGifURL _ _ _ => fun n => (("http://x/y.gif", None), S n)
    | getMultipleGifsURL _ _ _ => fun n => ((["http://x/y.gif"; "http://x/z.gif"], None), S n)
    end.

(** A provider whose every request fails with "timeout". *)
Definition failingWorld : World nat :=
  fun R c =>
    match c in Call T return nat -> T * nat with
    | RegisterCommand _ _ => fun n => (None, S n)
    | LoadPluginConfiguration _ d => fun n => ((d, Some "no settings"), S n)
    | getGifURL _ _ _ => fun n => (("", Some "timeout"), S n)
    | getMultipleGifsURL _ _ _ => fun n => (([], Some "timeout"), S n)
    end.

(** The program never panics, whatever the answers to its calls. *)
Fixpoint noPanic {A : Type} (t : Prog A) : Prop :=
  match t with
  | Ret _ => True
  | Panic => False
  | Do c k => forall r, noPanic (k r)
  end.

(** The hooks the host calls on an activated plugin, with a non-nil API
    handle for [OnActivate]. *)
Inductive HostCall : Type :=
| CallOnActivate (a : plugin_API)
| CallOnDeactivate
| CallOnConfigurationChange
| CallExecuteCommand (args : CommandArgs).

(** One hook, its result dropped. *)
Definition serve (c : HostCall) : M unit :=
  match c with
  | CallOnActivate a => _ <- OnActivate (Some a) ;; ret tt
  | CallOnDeactivate => _ <- OnDeactivate ;; ret tt
  | CallOnConfigurationChange => _ <- OnConfigurationChange ;; ret tt
  | CallExecuteCommand args => _ <- ExecuteCommand args ;; ret tt
  end.

(** Hooks called one after the other on the same plugin. *)
Fixpoint serveAll (cs : list HostCall) : M unit :=
  match cs with
  | [] => ret tt
  | c :: rest => serve c ;;; serveAll rest
  end.

(** The plugin has all it dereferences: an API handle, a stored
    configuration and a provider. *)
Definition equipped (p : GiphyPlugin) : Prop :=
  api p <> None /\ configuration p <> None /\ gifProvider p <> None.

(** Number of occurrences of the byte [b] in [s]. *)
Fixpoint countByte (b : ascii) (s : string) : nat :=
  match s with
  | EmptyString => 0
  | String c s' => (if Ascii.eqb c b then 1 else 0) + countByte b s'
  end.

(** A host that accepts the first [k] calls made to it and refuses to
    register a command after that with "denied"; the world counts the
    calls. *)
Definition refusingWorld (k : nat) : World nat :=
  fun R c =>
    match c in Call T return nat -> T * nat with
    | RegisterCommand _ _ => fun n => (if Nat.ltb n k then None else Some "denied", S n)
    | LoadPluginConfiguration _ d => fun n => ((d, None), S n)
    | getGifURL _ _ _ => fun n => (("http://x/y.gif", None), S n)
    | getMultipleGifsURL _ _ _ => fun n => (([], None), S n)
    end.

(** A host that fails to load the settings with "no settings", leaving the
    struct as it was given, beside a provider that finds a GIF. *)
Definition settingsLostWorld : World nat :=
  fun R c =>
    match c in Call T return nat -> T * nat with
    | RegisterCommand _ _ => fun n => (None, S n)
    | LoadPluginConfiguration _ d => fun n => ((d, Some "no settings"), S n)
    | getGifURL _ _ _ => fun n => (("http://x/y.gif", None), S n)
    | getMultipleGifsURL _ _ _ => fun n => ((["http://x/y.gif"], None), S n)
    end.

(** ** Go's string functions *)

Section StringFacts.

Lemma prefix_cons (c d : ascii) (u s : string) :
  String.prefix (String c u) (String d s) = (Ascii.eqb c d && String.prefix u s)%bool.
Proof.
  cbn [String.prefix]. destruct (ascii_dec c d) as [e|ne].
  - subst d. now rewrite Ascii.eqb_refl.
  - apply Ascii.eqb_neq in ne. now rewrite ne.
Qed.

Lemma prefix_nil (s : string) : String.prefix "" s = true.
Proof. now destruct s. Qed.

Lemma prefix_app (u r : string) : String.prefix u (u ++ r) = true.
Proof.
  induction u as [|c u IH]; cbn [String.append].
  - apply prefix_nil.
  - now rewrite prefix_cons, Ascii.eqb_refl.
Qed.

Lemma drop_app (u r : string) : drop (String.length u) (u ++ r) = r.
Proof. induction u as [|c u IH]; cbn; [now destruct r | exact IH]. Qed.

Lemma Index_prefix (c : ascii) (u r : string) :
  Index (String c u ++ r) (String c u) = Some 0.
Proof.
  unfold Index. change (String c u ++ r) with (String c (u ++ r)).
  cbn [String.index].
  change (String c (u ++ r)) with (String c u ++ r).
  now rewrite prefix_app.
Qed.

(** Replacing once removes a leading occurrence and nothing else. *)
Lemma Replace_leading (c : ascii) (u r : string) :
  Replace (String c u ++ r) (String c u) "" 1 = r.
Proof.
  unfold Replace. cbn [String.eqb orb Z.eqb Z.ltb Z.compare].
  change (Z.to_nat 1) with 1. cbn [replace_loop].
  rewrite Index_prefix. cbn [take Nat.add replace_loop String.append].
  apply (drop_app (String c u)).
Qed.

Lemma TrimLeft_spaces (s : string) :
  exists n, s = spaces n ++ TrimLeft s " "
            /\ HasPrefix (TrimLeft s " ") " " = false.
Proof.
  induction s as [|c s [n [E H]]].
  - exists 0. now split.
  - cbn [TrimLeft inCutset]. rewrite orb_false_r.
    destruct (Ascii.eqb c " ") eqn:Ec.
    + apply Ascii.eqb_eq in Ec. subst c. exists (S n). split; [|exact H].
      cbn [spaces String.append]. now f_equal.
    + exists 0. split; [reflexivity|].
      unfold HasPrefix. rewrite prefix_cons, Ascii.eqb_sym, Ec. reflexivity.
Qed.

Lemma HasSuffix_byte (c d : ascii) (s : string) :
  HasSuffix (String c s) (String d "")
  = match s with
    | EmptyString => Ascii.eqb c d
    | String _ _ => HasSuffix s (String d "")
    end.
Proof.
  destruct s as [|e s]; unfold HasSuffix; cbn [String.length Nat.leb Nat.sub andb drop].
  - cbn [String.eqb]. now destruct (Ascii.eqb c d).
  - now rewrite Nat.sub_0_r.
Qed.

Lemma TrimRight_spaces (s : string) :
  exists m, s = TrimRight s " " ++ spaces m
            /\ HasSuffix (TrimRight s " ") " " = false.
Proof.
  induction s as [|c s [m [E H]]].
  - exists 0. now split.
  - cbn [TrimRight inCutset]. rewrite orb_false_r.
    destruct (TrimRight s " ") as [|d r] eqn:Et.
    + destruct (Ascii.eqb c " ") eqn:Ec.
      * apply Ascii.eqb_eq in Ec. subst c. exists (S m). split; [|reflexivity].
        cbn [String.append spaces] in *. now f_equal.
      * exists m. split.
        -- cbn [String.append] in *. now f_equal.
        -- now rewrite HasSuffix_byte.
    + exists m. split.
      * cbn [String.append] in *. now f_equal.
      * now rewrite HasSuffix_byte.
Qed.

Lemma TrimRight_keeps_head (s : string) :
  HasPrefix s " " = false -> HasPrefix (TrimRight s " ") " " = false.
Proof.
  destruct s as [|c s]; [reflexivity|].
  unfold HasPrefix. rewrite prefix_cons, prefix_nil, andb_true_r. intros Hc.
  cbn [TrimRight inCutset]. rewrite orb_false_r.
  destruct (TrimRight s " ");
    [rewrite Ascii.eqb_sym, Hc|]; now rewrite prefix_cons, prefix_nil, Hc.
Qed.

(** [Trim] takes spaces away at both ends, and only spaces. *)
Lemma Trim_spaces (s : string) :
  (exists n m, s = spaces n ++ Trim s " " ++ spaces m)
  /\ HasPrefix (Trim s " ") " " = false
  /\ HasSuffix (Trim s " ") " " = false.
Proof.
  unfold Trim.
  destruct (TrimLeft_spaces s) as [n [El Hl]].
  destruct (TrimRight_spaces (TrimLeft s " ")) as [m [Er Hr]].
  split; [|split].
  - exists n, m. now rewrite <- Er.
  - now apply TrimRight_keeps_head.
  - exact Hr.
Qed.

Lemma prefix_split (u s : string) :
  String.prefix u s = true -> s = u ++ drop (String.length u) s.
Proof.
  revert s. induction u as [|c u IH]; intros s H; [reflexivity|].
  destruct s as [|d s]; [discriminate H|].
  rewrite prefix_cons in H. apply andb_prop in H. destruct H as [Hc Hu].
  apply Ascii.eqb_eq in Hc. subst d.
  change (String c u ++ drop (String.length (String c u)) (String c s))
    with (String c (u ++ drop (String.length u) s)).
  now rewrite <- IH.
Qed.

Lemma length_drop (n : nat) (s : string) :
  String.length (drop n s) = String.length s - n.
Proof.
  revert s. induction n as [|n IH]; intros s.
  - cbn [drop]. lia.
  - destruct s as [|c s]; [reflexivity|]. cbn [drop String.length]. now rewrite IH.
Qed.

End StringFacts.

(** ** The dispatcher, case by case *)

Arguments getCommandKeywords : simpl never.
Arguments applyResponseTemplate : simpl never.
Arguments gifsText : simpl never.
Arguments HasPrefix : simpl never.
Arguments appError : simpl never.
Arguments String.append : simpl never.

Section Dispatch.

Variables (a : plugin_API) (cfg : GiphyPluginConfiguration) (g : gifProviderI).
Variable args : CommandArgs.

Let p := readyPlugin a cfg g.
Let cmd := Command_ args.

Lemma HasPrefix_gifs_gif (s : string) :
  HasPrefix s ("/" ++ triggerGifs) = true -> HasPrefix s ("/" ++ triggerGif) = true.
Proof.
  unfold HasPrefix, triggerGifs, triggerGif.
  change ("/" ++ "gifs") with "/gifs". change ("/" ++ "gif") with "/gif".
  destruct s as [|c1 [|c2 [|c3 [|c4 [|c5 s]]]]]; try discriminate;
    rewrite ?prefix_cons, ?prefix_nil, ?andb_true_r;
    try (intros H; repeat (apply andb_prop in H; destruct H as [? H]); discriminate).
  intros H. apply andb_prop in H. destruct H as [H1 H].
  apply andb_prop in H. destruct H as [H2 H].
  apply andb_prop in H. destruct H as [H3 H].
  apply andb_prop in H. destruct H as [H4 H].
  now rewrite H1, H2, H3, H4.
Qed.

Lemma ExecuteCommand_gifs :
  HasPrefix cmd ("/" ++ triggerGifs) = true ->
  exists k,
    ExecuteCommand args p
    = Do (getMultipleGifsURL g cfg (getCommandKeywords cmd triggerGifs)) k
    /\ (forall urls,
          k (urls, None)
          = Ret ((Some {| ResponseType := COMMAND_RESPONSE_TYPE_EPHEMERAL;
                          Text := gifsText (getCommandKeywords cmd triggerGifs) urls |},
                  None), p))
    /\ (forall urls e,
          k (urls, Some e) = Ret ((None, Some (appError msgProvider (Some e))), p)).
Proof.
  intros H. unfold ExecuteCommand, bind, get. cbn.
  fold cmd. rewrite H.
  eexists. split; [reflexivity|]. split; intros; reflexivity.
Qed.

Lemma ExecuteCommand_gif :
  HasPrefix cmd ("/" ++ triggerGifs) = false ->
  HasPrefix cmd ("/" ++ triggerGif) = true ->
  exists k,
    ExecuteCommand args p
    = Do (getGifURL g cfg (getCommandKeywords cmd triggerGif)) k
    /\ (forall url,
          k (url, None)
          = Ret ((Some {| ResponseType := COMMAND_RESPONSE_TYPE_IN_CHANNEL;
                          Text := applyResponseTemplate (ResponseTemplate cfg)
                                    (getCommandKeywords cmd triggerGif) url |},
                  None), p))
    /\ (forall url e,
          k (url, Some e) = Ret ((None, Some (appError msgProvider (Some e))), p)).
Proof.
  intros H1 H2. unfold ExecuteCommand, bind, get. cbn.
  fold cmd. rewrite H1, H2.
  eexists. split; [reflexivity|]. split; intros; reflexivity.
Qed.

End Dispatch.

Lemma ExecuteCommand_disabled (args : CommandArgs) (p : GiphyPlugin) :
  enabled p = false ->
  ExecuteCommand args p = Ret ((None, Some (appError msgDisabled None)), p).
Proof. intros H. unfold ExecuteCommand, bind, get. cbn. now rewrite H. Qed.

Lemma ExecuteCommand_no_api (args : CommandArgs) (p : GiphyPlugin) :
  enabled p = true -> api p = None ->
  ExecuteCommand args p = Ret ((None, Some (appError msgNoAPI None)), p).
Proof. intros H1 H2. unfold ExecuteCommand, bind, get. cbn. now rewrite H1, H2. Qed.

Lemma ExecuteCommand_unsupported (args : CommandArgs) (p : GiphyPlugin) :
  enabled p = true -> api p <> None ->
  HasPrefix (Command_ args) ("/" ++ triggerGif) = false ->
  ExecuteCommand args p
  = Ret ((None, Some (appError (msgUnsupported (Command_ args)) None)), p).
Proof.
  intros H1 H2 H3. unfold ExecuteCommand, bind, get. cbn. rewrite H1. cbn.
  destruct (api p); [|now elim H2].
  destruct (HasPrefix (Command_ args) ("/" ++ triggerGifs)) eqn:H4.
  - apply HasPrefix_gifs_gif in H4. congruence.
  - now rewrite H3.
Qed.

(** ** Unrecognized triggers *)

(** Claim C1, as stated, fails.  The dispatcher tests prefixes of the command
    line, not its leading token: "/gifted cats" has the leading token
    "gifted", which is neither trigger, and is served as a "/gif" command
    with the keywords "ted cats", by a call to the provider.  And before
    activation "/foo bar" gets the not-ready error, not the
    unsupported-command one. *)
Lemma unrecognized_token_reaches_provider :
  (knownTrigger (spec_trigger "/gifted cats") = false
   /\ exists k,
       ExecuteCommand (mkCommandArgs "u" "c" "t" "/gifted cats")
                      (readyPlugin (HostAPI 0) zeroConfiguration (Provider 0))
       = Do (getGifURL (Provider 0) zeroConfiguration "ted cats") k)
  /\ (knownTrigger (spec_trigger "/foo bar") = false
      /\ ExecuteCommand (mkCommandArgs "u" "c" "t" "/foo bar") mainPlugin
         = Ret ((None, Some (appError msgDisabled None)), mainPlugin))
  /\ ~ unrecognized_token_always_rejected.
Proof.
  split; [|split].
  - split; [reflexivity|]. eexists. reflexivity.
  - split; reflexivity.
  - intros H.
    specialize (H (mkCommandArgs "u" "c" "t" "/gifted cats")
                  (readyPlugin (HostAPI 0) zeroConfiguration (Provider 0)) eq_refl).
    discriminate H.
Qed.

(** Claim C1, amended: when the plugin is enabled and holds an API handle,
    every command line that does not begin with "/gif" (hence not with
    "/gifs" either) gets the unsupported-command error, the plugin is left as
    it was, and no call is made: in every outside world the run's list of
    calls is empty. *)
Theorem unsupported_prefix_rejected_without_call
    (args : CommandArgs) (p : GiphyPlugin) :
  enabled p = true ->
  api p <> None ->
  HasPrefix (Command_ args) ("/" ++ triggerGif) = false ->
  ExecuteCommand args p
  = Ret ((None, Some (appError (msgUnsupported (Command_ args)) None)), p)
  /\ HasPrefix (Command_ args) ("/" ++ triggerGifs) = false
  /\ forall (W : Type) (h : World W) (w : W),
       run h (ExecuteCommand args p) w
       = (Some ((None, Some (appError (msgUnsupported (Command_ args)) None)), p), w, []).
Proof.
  intros H1 H2 H3.
  pose proof (ExecuteCommand_unsupported args p H1 H2 H3) as E.
  split; [exact E|]. split.
  - destruct (HasPrefix (Command_ args) ("/" ++ triggerGifs)) eqn:H4; [|reflexivity].
    apply HasPrefix_gifs_gif in H4. congruence.
  - intros W h w. now rewrite E.
Qed.

Lemma unsupported_prefix_rejected_without_call_witness :
  ExecuteCommand (mkCommandArgs "u" "c" "t" "/foo bar")
                 (readyPlugin (HostAPI 0) zeroConfiguration (Provider 0))
  = Ret ((None, Some (appError "Command trigger /foo baris not supported by this plugin." None)),
         readyPlugin (HostAPI 0) zeroConfiguration (Provider 0)).
Proof.
  apply (unsupported_prefix_rejected_without_call
           (mkCommandArgs "u" "c" "t" "/foo bar")
           (readyPlugin (HostAPI 0) zeroConfiguration (Provider 0))).
  - reflexivity.
  - discriminate.
  - reflexivity.
Defined.

(** ** Keyword extraction *)

Lemma TrimLeft_only_spaces (n : nat) : TrimLeft (spaces n) " " = "".
Proof. induction n as [|n IH]; [reflexivity | exact IH]. Qed.

Lemma getCommandKeywords_leading (trigger rest : string) :
  getCommandKeywords ("/" ++ trigger ++ rest) trigger = Trim rest " ".
Proof.
  unfold getCommandKeywords. f_equal.
  apply (Replace_leading "/"%char trigger rest).
Qed.

Lemma getCommandKeywords_blank (trigger : string) (n : nat) :
  getCommandKeywords ("/" ++ trigger ++ spaces n) trigger = "".
Proof.
  rewrite getCommandKeywords_leading. unfold Trim.
  now rewrite TrimLeft_only_spaces.
Qed.

Lemma gif_blank_not_gifs (n : nat) :
  HasPrefix ("/" ++ triggerGif ++ spaces n) ("/" ++ triggerGifs) = false.
Proof. now destruct n. Qed.

(** Claim C2: for a command line that begins with a slash and the trigger,
    [getCommandKeywords] gives what follows that one leading occurrence, with
    the spaces at both ends taken away and nothing else changed (a second
    occurrence of the trigger stays); "/gifs   happy kitty " gives
    "happy kitty"; and keywords that come out empty are not rejected: the
    provider is called with the empty string, on both paths. *)
Theorem keywords_strip_one_trigger_and_spaces (trigger rest : string) :
  let keywords := getCommandKeywords ("/" ++ trigger ++ rest) trigger in
  keywords = Trim rest " "
  /\ (exists n m, rest = spaces n ++ keywords ++ spaces m)
  /\ HasPrefix keywords " " = false
  /\ HasSuffix keywords " " = false
  /\ getCommandKeywords "/gifs   happy kitty " "gifs" = "happy kitty"
  /\ getCommandKeywords "/gifs /gifs kitty" "gifs" = "/gifs kitty"
  /\ (forall commandLine,
        HasPrefix commandLine ("/" ++ trigger) = true ->
        getCommandKeywords commandLine trigger
        = Trim (drop (String.length ("/" ++ trigger)) commandLine) " ")
  /\ (forall a cfg g u c t n,
        exists k,
          ExecuteCommand (mkCommandArgs u c t ("/" ++ triggerGif ++ spaces n))
                         (readyPlugin a cfg g)
          = Do (getGifURL g cfg "") k)
  /\ (forall a cfg g u c t n,
        exists k,
          ExecuteCommand (mkCommandArgs u c t ("/" ++ triggerGifs ++ spaces n))
                         (readyPlugin a cfg g)
          = Do (getMultipleGifsURL g cfg "") k).
Proof.
  intros keywords. subst keywords. rewrite getCommandKeywords_leading.
  destruct (Trim_spaces rest) as [He [Hp Hs]].
  repeat split; try assumption; try reflexivity.
  - intros commandLine H. apply prefix_split in H. rewrite H at 1.
    apply (getCommandKeywords_leading trigger).
  - intros a cfg g u c t n.
    destruct (ExecuteCommand_gif a cfg g (mkCommandArgs u c t ("/" ++ triggerGif ++ spaces n)))
      as [k [E _]].
    + apply gif_blank_not_gifs.
    + apply (prefix_app ("/" ++ triggerGif)).
    + exists k. cbn [Command_] in E. now rewrite getCommandKeywords_blank in E.
  - intros a cfg g u c t n.
    destruct (ExecuteCommand_gifs a cfg g (mkCommandArgs u c t ("/" ++ triggerGifs ++ spaces n)))
      as [k [E _]].
    + apply (prefix_app ("/" ++ triggerGifs)).
    + exists k. cbn [Command_] in E. now rewrite getCommandKeywords_blank in E.
Qed.

Lemma keywords_strip_one_trigger_and_spaces_witness :
  getCommandKeywords "/gifs   happy kitty " "gifs" = Trim "   happy kitty " " ".
Proof.
  destruct (keywords_strip_one_trigger_and_spaces "gifs" "") as [_ [_ [_ [_ [_ [_ [Hsite _]]]]]]].
  apply (Hsite "/gifs   happy kitty "). reflexivity.
Defined.

(** ** Readiness *)

(** Claim C6: a plugin whose enabled flag is false answers every command line
    with the not-ready error, whatever the trigger, and so does a plugin that
    has just been deactivated; an enabled plugin without API handle answers
    every command line with the other not-ready error.  Neither makes a
    call. *)
Theorem not_ready_whatever_the_trigger (args : CommandArgs) (p : GiphyPlugin) :
  (enabled p = false ->
   ExecuteCommand args p = Ret ((None, Some (appError msgDisabled None)), p))
  /\ bindP (OnDeactivate p) (fun r => ExecuteCommand args (snd r))
     = Ret ((None, Some (appError msgDisabled None)), setEnabled false p)
  /\ (enabled p = true -> api p = None ->
      ExecuteCommand args p = Ret ((None, Some (appError msgNoAPI None)), p))
  /\ (api p = None ->
      exists m, (m = msgDisabled \/ m = msgNoAPI)
                /\ ExecuteCommand args p = Ret ((None, Some (appError m None)), p)).
Proof.
  split; [|split; [|split]].
  - apply ExecuteCommand_disabled.
  - unfold OnDeactivate, modify, bind, get, put, ret. cbn [bindP fst snd].
    now rewrite ExecuteCommand_disabled.
  - apply ExecuteCommand_no_api.
  - intros Ha. destruct (enabled p) eqn:He.
    + exists msgNoAPI. split; [now right|]. now apply ExecuteCommand_no_api.
    + exists msgDisabled. split; [now left|]. now apply ExecuteCommand_disabled.
Qed.

Lemma not_ready_whatever_the_trigger_witness :
  ExecuteCommand (mkCommandArgs "u" "c" "t" "/gif happy kitty")
                 (setEnabled false (readyPlugin (HostAPI 0) zeroConfiguration (Provider 0)))
  = Ret ((None, Some (appError "Cannot execute command while the plugin is disabled." None)),
         setEnabled false (readyPlugin (HostAPI 0) zeroConfiguration (Provider 0)))
  /\ ExecuteCommand (mkCommandArgs "u" "c" "t" "/gifs happy kitty")
                    (setEnabled true mainPlugin)
     = Ret ((None, Some (appError "Cannot access the plugin API." None)),
            setEnabled true mainPlugin).
Proof.
  split.
  - destruct (not_ready_whatever_the_trigger
                (mkCommandArgs "u" "c" "t" "/gif happy kitty")
                (setEnabled false (readyPlugin (HostAPI 0) zeroConfiguration (Provider 0))))
      as [Hdisabled _].
    apply Hdisabled. reflexivity.
  - destruct (not_ready_whatever_the_trigger
                (mkCommandArgs "u" "c" "t" "/gifs happy kitty")
                (setEnabled true mainPlugin))
      as [_ [_ [Hnoapi _]]].
    apply Hnoapi; reflexivity.
Defined.

(** ** Runs and trees *)

Lemma run_allReturns {W A : Type} (P : A -> Prop) (h : World W) (t : Prog A) :
  allReturns P t ->
  forall w x w' l, run h t w = (Some x, w', l) -> P x.
Proof.
  induction t as [x0| |R c k IH]; cbn [allReturns run]; intros Ht w x w' l E.
  - now inversion E; subst.
  - discriminate E.
  - destruct (h R c w) as [r w1].
    destruct (run h (k r) w1) as [[o w2] l2] eqn:Er.
    inversion E; subst. eapply IH; [apply Ht | exact Er].
Qed.

Lemma run_atMostCalls {W A : Type} (h : World W) (t : Prog A) :
  forall n, atMostCalls n t -> forall w, List.length (snd (run h t w)) <= n.
Proof.
  induction t as [x0| |R c k IH]; cbn [atMostCalls run]; intros n Ht w.
  - cbn. lia.
  - cbn. lia.
  - destruct n as [|n]; [contradiction|].
    destruct (h R c w) as [r w1].
    specialize (IH r n (Ht r) w1).
    destruct (run h (k r) w1) as [[o w2] l2]. cbn in *. lia.
Qed.

(** Every leaf of a command's tree, for a plugin in any state. *)
Lemma ExecuteCommand_leaves (args : CommandArgs) (p : GiphyPlugin) :
  allReturns
    (fun x =>
       snd x = p
       /\ match fst x with
          | (Some resp, None) =>
              ResponseType resp = COMMAND_RESPONSE_TYPE_IN_CHANNEL
              \/ ResponseType resp = COMMAND_RESPONSE_TYPE_EPHEMERAL
          | (None, Some e) =>
              exists m detail,
                e = NewAppError "Giphy Plugin" m detail StatusBadRequest
                /\ (m = msgDisabled \/ m = msgNoAPI
                    \/ m = msgUnsupported (Command_ args) \/ m = msgProvider)
          | _ => False
          end)
    (ExecuteCommand args p)
  /\ atMostCalls 1 (ExecuteCommand args p).
Proof.
  destruct p as [ap cp gp en].
  unfold ExecuteCommand, executeCommandGif, executeCommandGifs, config, bind, get. cbn.
  destruct en; cbn.
  2:{ split; [|exact I]. split; [reflexivity|]. exists msgDisabled, "". now split; [|left]. }
  destruct ap; cbn.
  2:{ split; [|exact I]. split; [reflexivity|]. exists msgNoAPI, "". now split; [|right; left]. }
  destruct (HasPrefix (Command_ args) ("/" ++ triggerGifs));
    [|destruct (HasPrefix (Command_ args) ("/" ++ triggerGif))]; cbn.
  - destruct cp; cbn; [destruct gp; cbn|]; try (split; exact I).
    split; [|intros r; destruct r as [x [e|]]; exact I].
    intros [urls [e|]]; cbn; (split; [reflexivity|]).
    + exists msgProvider, e. split; [reflexivity|]. now right; right; right.
    + now right.
  - destruct cp; cbn; [destruct gp; cbn|]; try (split; exact I).
    split; [|intros r; destruct r as [x [e|]]; exact I].
    intros [url [e|]]; cbn; (split; [reflexivity|]).
    + exists msgProvider, e. split; [reflexivity|]. now right; right; right.
    + now left.
  - split; [|exact I]. split; [reflexivity|].
    exists (msgUnsupported (Command_ args)), "". split; [reflexivity|]. now right; right; left.
Qed.

Lemma allReturns_impl {A : Type} (P Q : A -> Prop) (t : Prog A) :
  (forall x, P x -> Q x) -> allReturns P t -> allReturns Q t.
Proof.
  intros HPQ. induction t as [x| |R c k IH]; cbn [allReturns]; auto.
Qed.

(** ** Visibility of the response *)

(** Claim C5: on a plugin that is ready, a command line beginning with
    "/gifs" asks the provider for several URLs and, when the answer carries no
    error, returns an ephemeral response; a command line beginning with "/gif"
    but not with "/gifs" asks for one URL and, when the answer carries no
    error, returns an in-channel response.  In a run, that one call is the
    only one.  The two visibilities differ. *)
Theorem visibility_follows_trigger
    (a : plugin_API) (cfg : GiphyPluginConfiguration) (g : gifProviderI)
    (args : CommandArgs) :
  let p := readyPlugin a cfg g in
  (HasPrefix (Command_ args) ("/" ++ triggerGifs) = true ->
   let keywords := getCommandKeywords (Command_ args) triggerGifs in
   forall (W : Type) (h : World W) (w w1 : W) (urls : list string),
     h _ (getMultipleGifsURL g cfg keywords) w = ((urls, None), w1) ->
     run h (ExecuteCommand args p) w
     = (Some ((Some {| ResponseType := COMMAND_RESPONSE_TYPE_EPHEMERAL;
                       Text := gifsText keywords urls |},
               None), p),
        w1, [Invoked (getMultipleGifsURL g cfg keywords)]))
  /\ (HasPrefix (Command_ args) ("/" ++ triggerGifs) = false ->
      HasPrefix (Command_ args) ("/" ++ triggerGif) = true ->
      let keywords := getCommandKeywords (Command_ args) triggerGif in
      forall (W : Type) (h : World W) (w w1 : W) (url : string),
        h _ (getGifURL g cfg keywords) w = ((url, None), w1) ->
        run h (ExecuteCommand args p) w
        = (Some ((Some {| ResponseType := COMMAND_RESPONSE_TYPE_IN_CHANNEL;
                          Text := applyResponseTemplate (ResponseTemplate cfg) keywords url |},
                  None), p),
           w1, [Invoked (getGifURL g cfg keywords)]))
  /\ COMMAND_RESPONSE_TYPE_IN_CHANNEL <> COMMAND_RESPONSE_TYPE_EPHEMERAL.
Proof.
  intros p. split; [|split].
  - intros H keywords W h w w1 urls Hh.
    destruct (ExecuteCommand_gifs a cfg g args H) as [k [E [Hok _]]].
    fold p keywords in E, Hok. rewrite E. cbn [run]. rewrite Hh, Hok. reflexivity.
  - intros H1 H2 keywords W h w w1 url Hh.
    destruct (ExecuteCommand_gif a cfg g args H1 H2) as [k [E [Hok _]]].
    fold p keywords in E, Hok. rewrite E. cbn [run]. rewrite Hh, Hok. reflexivity.
  - discriminate.
Qed.

Lemma visibility_follows_trigger_witness :
  let p := readyPlugin (HostAPI 0)
             (mkConfiguration "g" "en" "original" "##KEYWORDS##: ##GIF_URL##" "key")
             (Provider 0) in
  run countingWorld (ExecuteCommand (mkCommandArgs "u" "c" "t" "/gifs cat") p) 0
  = (Some ((Some {| ResponseType := "ephemeral";
                    Text := gifsText "cat" ["http://x/y.gif"; "http://x/z.gif"] |}, None), p),
     1, [Invoked (getMultipleGifsURL (Provider 0) (configurationOf p) "cat")])
  /\ run countingWorld (ExecuteCommand (mkCommandArgs "u" "c" "t" "/gif cat") p) 0
     = (Some ((Some {| ResponseType := "in_channel"; Text := "cat: http://x/y.gif" |}, None), p),
        1, [Invoked (getGifURL (Provider 0) (configurationOf p) "cat")]).
Proof.
  intros p. split.
  - destruct (visibility_follows_trigger (HostAPI 0)
                (mkConfiguration "g" "en" "original" "##KEYWORDS##: ##GIF_URL##" "key")
                (Provider 0) (mkCommandArgs "u" "c" "t" "/gifs cat")) as [Hgifs _].
    apply (Hgifs eq_refl nat countingWorld 0 1 ["http://x/y.gif"; "http://x/z.gif"]).
    reflexivity.
  - destruct (visibility_follows_trigger (HostAPI 0)
                (mkConfiguration "g" "en" "original" "##KEYWORDS##: ##GIF_URL##" "key")
                (Provider 0) (mkCommandArgs "u" "c" "t" "/gif cat")) as [_ [Hgif _]].
    apply (Hgif eq_refl eq_refl nat countingWorld 0 1 "http://x/y.gif").
    reflexivity.
Defined.

(** ** Errors *)

(** Claim C7: whatever the plugin's state, the command line and the answers
    of the provider, an error returned by [ExecuteCommand] comes without a
    response, was built by [NewAppError] for "Giphy Plugin" with status 400,
    and its message is one of the four fixed texts (the command line being
    quoted in the unsupported-command one).  If the command's first call
    comes back with an error, the command returns at once the error whose
    message is "Unable to get GIF URL" and whose detail is the provider's
    text; that first call is to the provider, and no run makes more than one
    call. *)
Theorem errors_are_bad_requests (args : CommandArgs) (p : GiphyPlugin) :
  allReturns
    (fun x =>
       forall e, snd (fst x) = Some e ->
         fst (fst x) = None
         /\ StatusCode e = 400%Z
         /\ Where e = "Giphy Plugin"
         /\ Id e = Message e
         /\ (Message e = "Cannot execute command while the plugin is disabled."
             \/ Message e = "Cannot access the plugin API."
             \/ Message e = "Command trigger " ++ Command_ args
                            ++ "is not supported by this plugin."
             \/ Message e = "Unable to get GIF URL"))
    (ExecuteCommand args p)
  /\ onFirstCall
       (fun R c k =>
          isProviderCall (Invoked c) = true
          /\ forall r err, answerError c r = Some err ->
               k r = Ret ((None, Some {| Id := "Unable to get GIF URL";
                                         Message := "Unable to get GIF URL";
                                         DetailedError := err;
                                         StatusCode := 400;
                                         Where := "Giphy Plugin" |}), p))
       (ExecuteCommand args p)
  /\ atMostCalls 1 (ExecuteCommand args p)
  /\ forall (W : Type) (h : World W) (w : W),
       List.length (snd (run h (ExecuteCommand args p) w)) <= 1.
Proof.
  destruct (ExecuteCommand_leaves args p) as [Hleaves Hcalls].
  split; [|split; [|split]].
  - revert Hleaves. apply allReturns_impl.
    intros [[[resp|] [e|]] q] [_ H] e' E; cbn in *; try contradiction; try discriminate.
    inversion E; subst e'. destruct H as [m [detail [-> Hm]]]. cbn.
    repeat split. destruct Hm as [-> | [-> | [-> | ->]]]; auto.
  - destruct p as [ap cp gp en].
    unfold ExecuteCommand, executeCommandGif, executeCommandGifs, config, bind, get. cbn.
    destruct en; cbn; [|exact I]. destruct ap; cbn; [|exact I].
    destruct (HasPrefix (Command_ args) ("/" ++ triggerGifs));
      [|destruct (HasPrefix (Command_ args) ("/" ++ triggerGif))]; cbn; [| |exact I].
    + destruct cp; cbn; [destruct gp; cbn|]; try exact I.
      split; [reflexivity|]. intros [urls o] err E. cbn in E. subst o. reflexivity.
    + destruct cp; cbn; [destruct gp; cbn|]; try exact I.
      split; [reflexivity|]. intros [url o] err E. cbn in E. subst o. reflexivity.
  - exact Hcalls.
  - intros W h w. now apply run_atMostCalls.
Qed.

Lemma errors_are_bad_requests_witness :
  let e := NewAppError "Giphy Plugin" "Unable to get GIF URL" "timeout" 400 in
  run failingWorld
      (ExecuteCommand (mkCommandArgs "u" "c" "t" "/gif cat")
                      (readyPlugin (HostAPI 0) zeroConfiguration (Provider 0))) 0
  = (Some ((None, Some e), readyPlugin (HostAPI 0) zeroConfiguration (Provider 0)),
     1, [Invoked (getGifURL (Provider 0) zeroConfiguration "cat")])
  /\ StatusCode e = 400%Z
  /\ Where e = "Giphy Plugin"
  /\ Id e = Message e
  /\ (Message e = "Cannot execute command while the plugin is disabled."
      \/ Message e = "Cannot access the plugin API."
      \/ Message e = "Command trigger " ++ "/gif cat" ++ "is not supported by this plugin."
      \/ Message e = "Unable to get GIF URL").
Proof.
  intros e. split; [reflexivity|].
  destruct (errors_are_bad_requests (mkCommandArgs "u" "c" "t" "/gif cat")
              (readyPlugin (HostAPI 0) zeroConfiguration (Provider 0))) as [Hall _].
  exact (proj2 (Hall ("", Some "timeout") e eq_refl)).
Defined.

(** ** Configuration reload *)

(** Claim C9: on a plugin with an API handle, [OnConfigurationChange] makes
    one call, [LoadPluginConfiguration] on a zero-valued struct, and whatever
    comes back, error or not, it stores the struct as the host left it and
    returns the host's error: after a failed load the holder has the freshly
    loaded struct, not the configuration it had before. *)
Theorem reload_stores_even_on_failure
    (a : plugin_API) (old : option GiphyPluginConfiguration)
    (g : option gifProviderI) (en : bool) :
  let p := {| api := Some a; configuration := old; gifProvider := g; enabled := en |} in
  exists k,
    OnConfigurationChange p = Do (LoadPluginConfiguration a zeroConfiguration) k
    /\ (forall loaded err,
          k (loaded, err)
          = Ret (err, {| api := Some a; configuration := Some loaded;
                         gifProvider := g; enabled := en |}))
    /\ (forall (W : Type) (h : World W) (w w1 : W) loaded e,
          h _ (LoadPluginConfiguration a zeroConfiguration) w = ((loaded, Some e), w1) ->
          run h (OnConfigurationChange p) w
          = (Some (Some e, {| api := Some a; configuration := Some loaded;
                              gifProvider := g; enabled := en |}),
             w1, [Invoked (LoadPluginConfiguration a zeroConfiguration)])).
Proof.
  intros p. eexists. split; [reflexivity|]. split.
  - intros loaded err. reflexivity.
  - intros W h w w1 loaded e Hh. cbn. now rewrite Hh.
Qed.

Lemma reload_stores_even_on_failure_witness :
  run failingWorld
      (OnConfigurationChange
         {| api := Some (HostAPI 0);
            configuration := Some (mkConfiguration "g" "en" "original" "##GIF_URL##" "key");
            gifProvider := Some (Provider 0); enabled := true |}) 0
  = (Some (Some "no settings",
           {| api := Some (HostAPI 0); configuration := Some zeroConfiguration;
              gifProvider := Some (Provider 0); enabled := true |}),
     1, [Invoked (LoadPluginConfiguration (HostAPI 0) zeroConfiguration)]).
Proof.
  destruct (reload_stores_even_on_failure (HostAPI 0)
              (Some (mkConfiguration "g" "en" "original" "##GIF_URL##" "key"))
              (Some (Provider 0)) true) as [k [_ [_ Hrun]]].
  apply (Hrun nat failingWorld 0 1 zeroConfiguration "no settings").
  reflexivity.
Defined.

(** ** Frame *)

Lemma handlers_leave_plugin_unchanged (command : string) (p : GiphyPlugin) :
  allReturns (fun x => snd x = p) (executeCommandGif command p)
  /\ allReturns (fun x => snd x = p) (executeCommandGifs command p)
  /\ allReturns (fun x => snd x = p) (config p).
Proof.
  destruct p as [ap cp gp en].
  unfold executeCommandGif, executeCommandGifs, config, bind, get. cbn.
  destruct cp; cbn; [destruct gp; cbn|]; repeat split; try exact I;
    intros [x [e|]]; reflexivity.
Qed.

(** Claim C10: whatever the command line, the plugin's state and the answers
    of the provider, when [ExecuteCommand] returns, the plugin's four fields
    are what they were; the same holds for the two handlers and for
    [config].  The three hooks do write: [OnDeactivate] the enabled flag,
    [OnActivate] the API handle and the enabled flag, and
    [OnConfigurationChange] the configuration. *)
Theorem commands_leave_plugin_unchanged (args : CommandArgs) (p : GiphyPlugin) :
  allReturns (fun x => snd x = p) (ExecuteCommand args p)
  /\ (forall (W : Type) (h : World W) (w w' : W) reply p' calls,
        run h (ExecuteCommand args p) w = (Some (reply, p'), w', calls) ->
        api p' = api p /\ configuration p' = configuration p
        /\ gifProvider p' = gifProvider p /\ enabled p' = enabled p)
  /\ (forall command,
        allReturns (fun x => snd x = p) (executeCommandGif command p)
        /\ allReturns (fun x => snd x = p) (executeCommandGifs command p)
        /\ allReturns (fun x => snd x = p) (config p))
  /\ OnDeactivate p = Ret (None, setEnabled false p)
  /\ (forall a, allReturns (fun x => api (snd x) = a /\ enabled (snd x) = true
                                     /\ gifProvider (snd x) = gifProvider p)
                           (OnActivate a p))
  /\ allReturns (fun x => exists c, snd x = storeConfiguration c p)
                (OnConfigurationChange p).
Proof.
  assert (Hframe : allReturns (fun x => snd x = p) (ExecuteCommand args p)).
  { generalize (proj1 (ExecuteCommand_leaves args p)). apply allReturns_impl.
    now intros x [H _]. }
  split; [exact Hframe|]. split; [|split; [|split; [|split]]].
  - intros W h w w' reply p' calls E.
    apply (run_allReturns _ h _ Hframe) in E. cbn in E. now subst p'.
  - intros command. apply handlers_leave_plugin_unchanged.
  - reflexivity.
  - intros [h|]; destruct p as [ap cp gp en]; cbn; [|exact I].
    intros [e|]; cbn; [now repeat split|].
    intros [e|]; cbn; [now repeat split|].
    intros [c e]. cbn. now repeat split.
  - destruct p as [[h|] cp gp en]; cbn; [|exact I].
    intros [c e]. cbn. now exists c.
Qed.

Lemma commands_leave_plugin_unchanged_witness :
  let p := {| api := Some (HostAPI 0); configuration := Some zeroConfiguration;
              gifProvider := Some (Provider 0); enabled := true |} in
  let p' := snd (match fst (fst (run countingWorld
                                     (ExecuteCommand (mkCommandArgs "u" "c" "t" "/gifs cat") p)
                                     0)) with
                 | Some x => x
                 | None => ((None, None), mainPlugin)
                 end) in
  api p' = Some (HostAPI 0) /\ configuration p' = Some zeroConfiguration
  /\ gifProvider p' = Some (Provider 0) /\ enabled p' = true.
Proof.
  intros p p'.
  destruct (commands_leave_plugin_unchanged (mkCommandArgs "u" "c" "t" "/gifs cat") p)
    as [_ [Hrun _]].
  apply (Hrun nat countingWorld 0 1
           (Some {| ResponseType := "ephemeral";
                    Text := gifsText "cat" ["http://x/y.gif"; "http://x/z.gif"] |}, None)
           p'
           [Invoked (getMultipleGifsURL (Provider 0) zeroConfiguration "cat")]).
  reflexivity.
Defined.

(** ** The text of the multi-GIF response *)

Section GifsText.

Variable keywords : string.

Lemma append_assoc (x y z : string) : (x ++ y) ++ z = x ++ (y ++ z).
Proof.
  induction x as [|c x IH]; [reflexivity|].
  change (String c ((x ++ y) ++ z) = String c (x ++ (y ++ z))). now rewrite IH.
Qed.

Lemma append_nil_r (x : string) : x ++ "" = x.
Proof.
  induction x as [|c x IH]; [reflexivity|].
  change (String c (x ++ "") = String c x). now rewrite IH.
Qed.

Lemma lastByte_app (x y : string) :
  lastByte (x ++ y) = match lastByte y with
                      | Some c => Some c
                      | None => lastByte x
                      end.
Proof.
  induction x as [|c x IH].
  - change ("" ++ y) with y. now destruct (lastByte y).
  - change (String c x ++ y) with (String c (x ++ y)).
    destruct x as [|d x].
    + change ("" ++ y) with y in *. destruct y as [|e y]; [reflexivity|].
      change (lastByte (String c (String e y))) with (lastByte (String e y)).
      destruct (lastByte (String e y)) eqn:E; [reflexivity|].
      exfalso. clear -E. revert e E. induction y as [|f y IHy]; intros e E.
      * discriminate E.
      * apply (IHy f). exact E.
    + change (String d x ++ y) with (String d (x ++ y)) in *.
      change (lastByte (String c (String d (x ++ y))))
        with (lastByte (String d (x ++ y))).
      rewrite IH. reflexivity.
Qed.

Lemma HasSuffix_lastByte (s : string) (d : ascii) :
  HasSuffix s (String d "") = match lastByte s with
                              | Some c => Ascii.eqb c d
                              | None => false
                              end.
Proof.
  induction s as [|c s IH]; [reflexivity|].
  rewrite HasSuffix_byte. destruct s as [|e s]; [reflexivity|]. exact IH.
Qed.

Lemma lastByte_gifLink (url : string) : lastByte (gifLink keywords url) = Some ")"%char.
Proof. unfold gifLink. now rewrite !lastByte_app. Qed.

Lemma gifsLoop_after_first (urls : list string) :
  forall (i : nat) (text : string),
    snd (fold_left (gifsLoopBody keywords) urls (S i, text))
    = match urls with
      | [] => text
      | _ :: _ => text ++ tab ++ String.concat tab (map (gifLink keywords) urls)
      end.
Proof.
  induction urls as [|u rest IH]; intros i text; [reflexivity|].
  cbn [fold_left gifsLoopBody Nat.ltb Nat.leb]. rewrite IH.
  destruct rest as [|u' rest]; cbn [map String.concat].
  - apply append_assoc.
  - now rewrite !append_assoc.
Qed.

Lemma gifsText_joined (urls : list string) :
  gifsText keywords urls
  = suggestionsHeader keywords ++ String.concat tab (map (gifLink keywords) urls).
Proof.
  unfold gifsText. destruct urls as [|u rest].
  - cbn [fold_left snd map String.concat]. now rewrite append_nil_r.
  - cbn [fold_left gifsLoopBody Nat.ltb Nat.leb]. rewrite gifsLoop_after_first.
    destruct rest as [|u' rest]; cbn [map String.concat]; [reflexivity|].
    now rewrite !append_assoc.
Qed.

Lemma gifsText_lastByte (urls : list string) :
  lastByte (gifsText keywords urls)
  = match urls with
    | [] => Some "*"%char
    | _ :: _ => Some ")"%char
    end.
Proof.
  unfold gifsText.
  assert (H : forall us st, us <> [] ->
            lastByte (snd (fold_left (gifsLoopBody keywords) us st)) = Some ")"%char).
  { induction us as [|u us IH]; intros [i text] Hne; [now elim Hne|].
    cbn [fold_left]. destruct us as [|u' us].
    - cbn [fold_left gifsLoopBody snd]. now rewrite lastByte_app, lastByte_gifLink.
    - apply IH. discriminate. }
  destruct urls as [|u rest].
  - cbn [fold_left snd]. unfold suggestionsHeader. now rewrite !lastByte_app.
  - apply H. discriminate.
Qed.

End GifsText.

(** Claim C4: when a command line beginning with "/gifs" reaches the provider
    and the provider answers with a non-empty list of URLs and no error, the
    response text is the header followed by the links of the URLs, one link
    per URL in the order returned, joined by single tabs; its last byte is
    the closing parenthesis of the last link, so it does not end with a
    tab. *)
Theorem gifs_text_is_links_joined_by_tabs
    (a : plugin_API) (cfg : GiphyPluginConfiguration) (g : gifProviderI)
    (args : CommandArgs) (urls : list string) :
  let p := readyPlugin a cfg g in
  let keywords := getCommandKeywords (Command_ args) triggerGifs in
  let links := map (gifLink keywords) urls in
  let text := suggestionsHeader keywords ++ String.concat tab links in
  urls <> [] ->
  HasPrefix (Command_ args) ("/" ++ triggerGifs) = true ->
  gifsText keywords urls = text
  /\ List.length links = List.length urls
  /\ lastByte text = Some ")"%char
  /\ HasSuffix text tab = false
  /\ forall (W : Type) (h : World W) (w w1 : W),
       h _ (getMultipleGifsURL g cfg keywords) w = ((urls, None), w1) ->
       run h (ExecuteCommand args p) w
       = (Some ((Some {| ResponseType := COMMAND_RESPONSE_TYPE_EPHEMERAL; Text := text |},
                 None), p),
          w1, [Invoked (getMultipleGifsURL g cfg keywords)]).
Proof.
  intros p keywords links text Hne Hpre.
  assert (Et : gifsText keywords urls = text) by apply gifsText_joined.
  assert (El : lastByte text = Some ")"%char).
  { rewrite <- Et, gifsText_lastByte. destruct urls; [now elim Hne | reflexivity]. }
  split; [exact Et|]. split; [apply length_map|]. split; [exact El|]. split.
  - unfold tab. now rewrite HasSuffix_lastByte, El.
  - intros W h w w1 Hh.
    destruct (ExecuteCommand_gifs a cfg g args Hpre) as [k [E [Hok _]]].
    fold p keywords in E, Hok. rewrite E. cbn [run]. rewrite Hh, Hok. cbn [run].
    now rewrite Et.
Qed.

Lemma gifs_text_is_links_joined_by_tabs_witness :
  gifsText "cat" ["http://x/y.gif"; "http://x/z.gif"]
  = " *Suggestions for 'cat':*"
    ++ "[![GIF for 'cat'](http://x/y.gif)](http://x/y.gif)" ++ tab
    ++ "[![GIF for 'cat'](http://x/z.gif)](http://x/z.gif)".
Proof.
  apply (gifs_text_is_links_joined_by_tabs (HostAPI 0) zeroConfiguration (Provider 0)
           (mkCommandArgs "u" "c" "t" "/gifs cat") ["http://x/y.gif"; "http://x/z.gif"]).
  - discriminate.
  - reflexivity.
Defined.

(** ** The response template *)

Section Template.

Variables keywords gifURL : string.

Let apply (template : string) : string := applyResponseTemplate template keywords gifURL.

Let oldnew : Replacer :=
  [("##KEYWORDS##", keywords); ("##GIF_URL##", gifURL); ("##VIA_GIPHY##", viaGiphy)].

Lemma replacer_scan_skip (r : Replacer) (u s : string) :
  replacer_scan r (String.length u) (u ++ s) = replacer_scan r 0 s.
Proof.
  induction u as [|c u IH]; [reflexivity|].
  change (String c u ++ s) with (String c (u ++ s)).
  cbn [String.length replacer_scan]. exact IH.
Qed.

Lemma lookup_token (ph : Placeholder) (s : string) :
  lookup oldnew (token ph ++ s) = Some (token ph, value keywords gifURL ph).
Proof.
  destruct ph; unfold oldnew, token, value; cbn [lookup].
  - now rewrite (prefix_app "##KEYWORDS##").
  - rewrite (prefix_app "##GIF_URL##").
    change ("##GIF_URL##" ++ s) with (String "#" (String "#" (String "G" ("IF_URL##" ++ s)))).
    now rewrite !prefix_cons.
  - rewrite (prefix_app "##VIA_GIPHY##").
    change ("##VIA_GIPHY##" ++ s)
      with (String "#" (String "#" (String "V" ("IA_GIPHY##" ++ s)))).
    now rewrite !prefix_cons.
Qed.

Lemma lookup_literal (s : string) :
  startsWithToken s = false -> lookup oldnew s = None.
Proof.
  unfold startsWithToken, token, oldnew. intros H.
  apply orb_false_elim in H. destruct H as [H H3].
  apply orb_false_elim in H. destruct H as [H1 H2].
  cbn [lookup]. now rewrite H1, H2, H3.
Qed.

(** A placeholder at the head is replaced by its value, and the scan goes on
    behind it: the value is not looked at. *)
Lemma apply_token (ph : Placeholder) (s : string) :
  apply (token ph ++ s) = value keywords gifURL ph ++ apply s.
Proof.
  unfold apply, applyResponseTemplate, NewReplacer, Replacer_Replace. fold oldnew.
  destruct (token ph) as [|c u] eqn:Et; [now destruct ph|].
  change (String c u ++ s) with (String c (u ++ s)).
  cbn [replacer_scan].
  change (String c (u ++ s)) with (String c u ++ s). rewrite <- Et, lookup_token, Et.
  cbn [String.length Nat.sub]. rewrite Nat.sub_0_r.
  now rewrite replacer_scan_skip.
Qed.

(** A byte at which no placeholder starts is copied. *)
Lemma apply_literal (c : ascii) (s : string) :
  startsWithToken (String c s) = false -> apply (String c s) = String c (apply s).
Proof.
  intros H. unfold apply, applyResponseTemplate, NewReplacer, Replacer_Replace.
  fold oldnew. cbn [replacer_scan]. now rewrite (lookup_literal _ H).
Qed.

Lemma apply_empty : apply "" = "".
Proof. reflexivity. Qed.

(** Replacing in a template is expanding its leftmost reading. *)
Lemma apply_leftmost (ps : list Piece) :
  leftmost ps = true -> apply (render ps) = expand keywords gifURL ps.
Proof.
  induction ps as [|[c|ph] ps IH]; intros H.
  - reflexivity.
  - cbn [leftmost] in H. apply andb_prop in H. destruct H as [H1 H2].
    apply negb_true_iff in H1. cbn [render expand] in *.
    rewrite (apply_literal _ _ H1). now rewrite IH.
  - cbn [leftmost render expand] in *. rewrite apply_token. now rewrite IH.
Qed.

Lemma startsWithToken_split (s : string) :
  startsWithToken s = true ->
  exists ph, s = token ph ++ drop (String.length (token ph)) s.
Proof.
  unfold startsWithToken. intros H.
  apply orb_prop in H. destruct H as [H|H]; [apply orb_prop in H; destruct H as [H|H]|].
  - exists KEYWORDS. now apply prefix_split.
  - exists GIF_URL. now apply prefix_split.
  - exists VIA_GIPHY. now apply prefix_split.
Qed.

(** Every template has a leftmost reading. *)
Lemma leftmost_reading (template : string) :
  exists ps, render ps = template /\ leftmost ps = true.
Proof.
  remember (String.length template) as n eqn:En.
  revert template En. induction n as [n IH] using lt_wf_ind. intros template En.
  destruct template as [|c s].
  - exists []. now split.
  - destruct (startsWithToken (String c s)) eqn:Hs.
    + destruct (startsWithToken_split _ Hs) as [ph E].
      destruct (IH (String.length (drop (String.length (token ph)) (String c s))))
        with (template := drop (String.length (token ph)) (String c s))
        as [ps [Hr Hl]]; [|reflexivity|].
      * rewrite length_drop. subst n. cbn [String.length]. destruct ph; cbn; lia.
      * exists (Tok ph :: ps). cbn [render leftmost]. now rewrite Hr, <- E.
    + destruct (IH (String.length s)) with (template := s) as [ps [Hr Hl]];
        [subst n; cbn [String.length]; lia | reflexivity |].
      exists (Lit c :: ps). cbn [render leftmost]. rewrite Hr, Hs, Hl. now split.
Qed.

(** Text without number sign is copied as it is. *)
Lemma apply_noHash (v s : string) :
  noHash v = true -> apply (v ++ s) = v ++ apply s.
Proof.
  induction v as [|c v IH]; intros H; [reflexivity|].
  cbn [noHash] in H. apply andb_prop in H. destruct H as [Hc Hv].
  apply negb_true_iff in Hc.
  change (String c v ++ s) with (String c (v ++ s)).
  change (String c v ++ apply s) with (String c (v ++ apply s)).
  rewrite apply_literal; [now rewrite IH|].
  unfold startsWithToken, token. rewrite !prefix_cons, Ascii.eqb_sym, Hc. reflexivity.
Qed.

End Template.

(** *** The values of the example: "cat" and "http://x/y.gif" *)

Section CatTemplate.

Let kw : string := "cat".
Let url : string := "http://x/y.gif".

(** A string made of bytes that begin none of the three values is at the head
    of the expansion only if it was at the head of the template. *)
Lemma prefix_expand_render (u : string) :
  noneOf "chv" u = true ->
  forall ps, String.prefix u (expand kw url ps) = true ->
             String.prefix u (render ps) = true.
Proof.
  induction u as [|x u IH]; intros Hu ps H; [apply prefix_nil|].
  cbn [noneOf] in Hu. apply andb_prop in Hu. destruct Hu as [Hx Hu].
  apply negb_true_iff in Hx.
  destruct ps as [|[d|ph] ps].
  - discriminate H.
  - cbn [expand render] in *. rewrite prefix_cons in *.
    apply andb_prop in H. destruct H as [H1 H2]. rewrite H1. cbn [andb].
    now apply IH.
  - exfalso. cbn [inCutset] in Hx.
    destruct ph; cbn [expand value] in H; unfold kw, url, viaGiphy in H.
    + change ("cat" ++ expand "cat" "http://x/y.gif" ps)
        with (String "c" ("at" ++ expand "cat" "http://x/y.gif" ps)) in H.
      rewrite prefix_cons in H. apply andb_prop in H. destruct H as [H _].
      now rewrite H in Hx.
    + change ("http://x/y.gif" ++ expand "cat" "http://x/y.gif" ps)
        with (String "h" ("ttp://x/y.gif" ++ expand "cat" "http://x/y.gif" ps)) in H.
      rewrite prefix_cons in H. apply andb_prop in H. destruct H as [H _].
      rewrite H in Hx. cbn in Hx. now rewrite orb_true_r in Hx.
    + match type of H with
      | String.prefix _ (String ?c ?t ++ ?e) = true =>
          change (String c t ++ e) with (String c (t ++ e)) in H
      end.
      rewrite prefix_cons in H. apply andb_prop in H. destruct H as [H _].
      rewrite H in Hx. cbn in Hx. now rewrite !orb_true_r in Hx.
Qed.

Lemma startsWithToken_expand (ps : list Piece) :
  startsWithToken (expand kw url ps) = true -> startsWithToken (render ps) = true.
Proof.
  unfold startsWithToken. intros H.
  apply orb_prop in H. destruct H as [H|H]; [apply orb_prop in H; destruct H as [H|H]|];
    apply prefix_expand_render in H; try reflexivity; rewrite H;
    now rewrite ?orb_true_r.
Qed.

(** The expansion has no placeholder left to replace. *)
Lemma apply_expand (ps : list Piece) :
  leftmost ps = true ->
  applyResponseTemplate (expand kw url ps) kw url = expand kw url ps.
Proof.
  induction ps as [|[c|ph] ps IH]; intros H.
  - reflexivity.
  - pose proof H as H0. cbn [leftmost] in H. apply andb_prop in H.
    destruct H as [H1 H2]. apply negb_true_iff in H1.
    cbn [expand]. rewrite apply_literal; [now rewrite IH|].
    destruct (startsWithToken (String c (expand kw url ps))) eqn:E; [|reflexivity].
    apply (startsWithToken_expand (Lit c :: ps)) in E. congruence.
  - cbn [leftmost expand] in *. rewrite apply_noHash; [now rewrite IH|].
    now destruct ph.
Qed.

End CatTemplate.

(** Claim C3: with the keywords "cat" and the URL "http://x/y.gif", every
    template is a sequence of literal bytes and placeholders, read from the
    left without passing over a placeholder, and [applyResponseTemplate]
    gives that sequence with each placeholder replaced by its value and each
    literal byte kept, in the same order; what was written is not replaced
    again, so that replacing a second time changes nothing; and each
    placeholder gets its own value wherever it stands: for three
    placeholders in any order between texts without number sign, the result
    is the texts with the three values in that order. *)
Theorem template_placeholders_replaced_once :
  let apply := fun template => applyResponseTemplate template "cat" "http://x/y.gif" in
  let expand := expand "cat" "http://x/y.gif" in
  let value := value "cat" "http://x/y.gif" in
  (forall template,
     exists ps, render ps = template /\ leftmost ps = true /\ apply template = expand ps)
  /\ (forall ps, leftmost ps = true -> apply (render ps) = expand ps)
  /\ (forall template, apply (apply template) = apply template)
  /\ (forall t0 t1 t2 t3 a b c,
        noHash t0 = true -> noHash t1 = true -> noHash t2 = true -> noHash t3 = true ->
        apply (t0 ++ token a ++ t1 ++ token b ++ t2 ++ token c ++ t3)
        = t0 ++ value a ++ t1 ++ value b ++ t2 ++ value c ++ t3)
  /\ apply "##KEYWORDS##: ##GIF_URL## ##VIA_GIPHY##"
     = "cat: http://x/y.gif via ![giphy](https://giphy.com/static/img/favicon.png)"
  /\ apply "##VIA_GIPHY## ##GIF_URL## (##KEYWORDS##)"
     = "via ![giphy](https://giphy.com/static/img/favicon.png) http://x/y.gif (cat)".
Proof.
  intros apply expand value. unfold apply, expand, value.
  split; [|split; [|split; [|split; [|split]]]]; try reflexivity.
  - intros template. destruct (leftmost_reading template) as [ps [Hr Hl]].
    exists ps. split; [exact Hr|]. split; [exact Hl|].
    rewrite <- Hr. now apply apply_leftmost.
  - apply apply_leftmost.
  - intros template. destruct (leftmost_reading template) as [ps [Hr Hl]].
    rewrite <- Hr, apply_leftmost by exact Hl. now apply apply_expand.
  - intros t0 t1 t2 t3 a b c H0 H1 H2 H3.
    rewrite apply_noHash by exact H0. rewrite apply_token.
    rewrite apply_noHash by exact H1. rewrite apply_token.
    rewrite apply_noHash by exact H2. rewrite apply_token.
    rewrite <- (append_nil_r t3) at 1. rewrite apply_noHash by exact H3.
    now rewrite apply_empty, append_nil_r.
Qed.

Lemma template_placeholders_replaced_once_witness :
  applyResponseTemplate
    ("Look: " ++ token GIF_URL ++ " for " ++ token KEYWORDS ++ " " ++ token VIA_GIPHY ++ "!")
    "cat" "http://x/y.gif"
  = "Look: http://x/y.gif for cat via ![giphy](https://giphy.com/static/img/favicon.png)!"
  /\ applyResponseTemplate (render [Lit "#"; Tok KEYWORDS; Lit "K"; Lit "#"; Lit "#"])
                           "cat" "http://x/y.gif"
     = "#catK##".
Proof.
  destruct template_placeholders_replaced_once as [_ [Hread [_ [Horder _]]]].
  split.
  - apply (Horder "Look: " " for " " " "!" GIF_URL KEYWORDS VIA_GIPHY); reflexivity.
  - apply (Hread [Lit "#"; Tok KEYWORDS; Lit "K"; Lit "#"; Lit "#"]). reflexivity.
Defined.

(** ** Reload against readers *)

Import AtomicConfig.

Section NoTornRead.

Variable threads : nat -> Goroutine.

Lemma upd_same {A : Type} (m : nat -> A) (i : nat) (x : A) : upd m i x i = x.
Proof. unfold upd. now rewrite Nat.eqb_refl. Qed.

Lemma upd_other {A : Type} (m : nat -> A) (i j : nat) (x : A) :
  j <> i -> upd m i x j = m j.
Proof. intros H. unfold upd. apply Nat.eqb_neq in H. now rewrite H. Qed.

Lemma writeFields_snoc (src : GiphyPluginConfiguration) (fs : list Field) (f : Field)
    (c : GiphyPluginConfiguration) :
  writeFields src (fs ++ [f]) c = setField f (getField f src) (writeFields src fs c).
Proof. unfold writeFields. now rewrite fold_left_app. Qed.

Lemma Inv_start : (forall i, fresh (threads i) = true) -> Inv threads (start threads).
Proof.
  intros Hf. constructor; cbn.
  - intros l v [].
  - auto.
  - intros i l src done todo E. specialize (Hf i). now rewrite E in Hf.
  - intros i j l src done todo src' done' todo' E. specialize (Hf i). now rewrite E in Hf.
  - discriminate.
  - reflexivity.
  - intros i l todo seen E. specialize (Hf i). now rewrite E in Hf.
Qed.

Ltac pool_at j i :=
  destruct (Nat.eq_dec j i) as [->|?];
  [rewrite upd_same in * | rewrite upd_other in * by assumption].

Lemma Inv_step (i : nat) (s : Sys) : Inv threads s -> Inv threads (step i s).
Proof.
  intros [Hst Hs Hl Ho Hh Hlatest Hr]. unfold step.
  destruct (pool s i) as [|src fs|l src done [|f todo]|fs|l [|f todo] seen|] eqn:Ei;
    try (constructor; assumption).
  - (* allocation *)
    constructor; cbn.
    + intros l v Hin. destruct (Hst l v Hin) as [Hlt [Hv Hc]].
      split; [lia|]. split; [|exact Hc]. rewrite upd_other; [exact Hv | lia].
    + intros j src' fs' E. pool_at j i; [discriminate E | eauto].
    + intros j l src' done todo E. pool_at j i.
      * inversion E; subst. split; [lia|]. split.
        -- intros v Hin. destruct (Hst _ _ Hin). lia.
        -- rewrite upd_same. split; [reflexivity|]. now apply Hs.
      * destruct (Hl _ _ _ _ _ E) as [Hlt [Hn [Hv Ht]]].
        split; [lia|]. split; [exact Hn|]. split; [|exact Ht].
        rewrite upd_other; [exact Hv | lia].
    + intros j k l src1 d1 t1 src2 d2 t2 E1 E2.
      pool_at j i; pool_at k i; try reflexivity.
      * inversion E1; subst. destruct (Hl _ _ _ _ _ E2). lia.
      * inversion E2; subst. destruct (Hl _ _ _ _ _ E1). lia.
      * eauto.
    + exact Hh.
    + exact Hlatest.
    + intros j l todo seen E. pool_at j i; [discriminate E | eauto].
  - (* Store *)
    destruct (Hl _ _ _ _ _ Ei) as [Hlt [Hn [Hv Ht]]].
    constructor; cbn.
    + intros l' v [E|Hin].
      * inversion E; subst. split; [exact Hlt|]. split; [reflexivity|].
        exists i, src, (rev done). split; [|exact Hv].
        now rewrite app_nil_r in Ht.
      * eauto.
    + intros j src' fs' E. pool_at j i; [discriminate E | eauto].
    + intros j l' src' done' todo' E. pool_at j i; [discriminate E|].
      destruct (Hl _ _ _ _ _ E) as [Hlt' [Hn' [Hv' Ht']]].
      split; [exact Hlt'|]. split; [|now split].
      intros v [E'|Hin]; [|now apply (Hn' v)].
      inversion E'; subst. elim n. symmetry. eapply Ho; eassumption.
    + intros j k l' src1 d1 t1 src2 d2 t2 E1 E2.
      pool_at j i; pool_at k i; try discriminate; eauto.
    + intros l' E. inversion E; subst. eexists. now left.
    + reflexivity.
    + intros j l' todo seen E. pool_at j i; [discriminate E|].
      destruct (Hr _ _ _ _ E) as [v [Hin Hseen]]. exists v. split; [now right | exact Hseen].
  - (* one field written *)
    destruct (Hl _ _ _ _ _ Ei) as [Hlt [Hn [Hv Ht]]].
    constructor; cbn.
    + intros l' v Hin. destruct (Hst l' v Hin) as [Hlt' [Hv' Hc]].
      split; [exact Hlt'|]. split; [|exact Hc].
      rewrite upd_other; [exact Hv'|]. intros ->. now apply (Hn v).
    + intros j src' fs' E. pool_at j i; [discriminate E | eauto].
    + intros j l' src' done' todo' E. pool_at j i.
      * inversion E; subst. split; [exact Hlt|]. split; [exact Hn|].
        rewrite upd_same. cbn [rev]. rewrite writeFields_snoc, <- Hv. split; [reflexivity|].
        now rewrite <- app_assoc.
      * destruct (Hl _ _ _ _ _ E) as [Hlt' [Hn' [Hv' Ht']]].
        split; [exact Hlt'|]. split; [exact Hn'|]. split; [|exact Ht'].
        rewrite upd_other; [exact Hv'|]. intros ->. apply n. eapply Ho; eassumption.
    + intros j k l' src1 d1 t1 src2 d2 t2 E1 E2.
      pool_at j i; pool_at k i; try reflexivity.
      * inversion E1; subst. symmetry. eapply Ho; eassumption.
      * inversion E2; subst. eapply Ho; eassumption.
      * eauto.
    + exact Hh.
    + exact Hlatest.
    + intros j l' todo' seen E. pool_at j i; [discriminate E | eauto].
  - (* Load *)
    destruct (holder s) as [l|] eqn:Eh; constructor; cbn; try assumption.
    + intros j src' fs' E. pool_at j i; [discriminate E | eauto].
    + intros j l' src' done' todo' E. pool_at j i; [discriminate E | eauto].
    + intros j k l' src1 d1 t1 src2 d2 t2 E1 E2.
      pool_at j i; pool_at k i; try discriminate; eauto.
    + intros j l' todo seen E. pool_at j i; [|eauto].
      inversion E; subst. destruct (Hh _ eq_refl) as [v Hin]. exists v. split; [exact Hin|].
      intros f x [].
    + intros j src' fs' E. pool_at j i; [discriminate E | eauto].
    + intros j l' src' done' todo' E. pool_at j i; [discriminate E | eauto].
    + intros j k l' src1 d1 t1 src2 d2 t2 E1 E2.
      pool_at j i; pool_at k i; try discriminate; eauto.
    + intros j l' todo seen E. pool_at j i; [discriminate E | eauto].
  - (* one field read *)
    constructor; cbn; try assumption.
    + intros j src' fs' E. pool_at j i; [discriminate E | eauto].
    + intros j l' src' done' todo' E. pool_at j i; [discriminate E | eauto].
    + intros j k l' src1 d1 t1 src2 d2 t2 E1 E2.
      pool_at j i; pool_at k i; try discriminate; eauto.
    + intros j l' todo' seen' E. pool_at j i; [|eauto].
      inversion E; subst. destruct (Hr _ _ _ _ Ei) as [v [Hin Hseen]].
      exists v. split; [exact Hin|]. intros f' x [E'|Hin'].
      * inversion E'; subst. now destruct (Hst _ _ Hin) as [_ [-> _]].
      * now apply Hseen.
Qed.

Lemma Inv_exec (schedule : list nat) (s : Sys) : Inv threads s -> Inv threads (exec schedule s).
Proof.
  revert s. induction schedule as [|i rest IH]; intros s H; [exact H|].
  cbn [exec fold_left]. apply IH. now apply Inv_step.
Qed.

End NoTornRead.

(** ** Activation *)

(** When the host accepts both commands, [OnActivate] registers "gif", then
    "gifs", then loads the configuration, and makes no other call; it returns
    what the load returned, and the plugin then has the handle, the struct the
    host filled and the enabled flag set, also when the load failed. *)
Theorem OnActivate_registers_then_loads
    (a : plugin_API) (p : GiphyPlugin) (W : Type) (h : World W) (w0 w1 w2 w3 : W)
    (loaded : GiphyPluginConfiguration) (err : option error) :
  h _ (RegisterCommand a commandGif) w0 = (None, w1) ->
  h _ (RegisterCommand a commandGifs) w1 = (None, w2) ->
  h _ (LoadPluginConfiguration a zeroConfiguration) w2 = ((loaded, err), w3) ->
  run h (OnActivate (Some a) p) w0
  = (Some (err, {| api := Some a; configuration := Some loaded;
                   gifProvider := gifProvider p; enabled := true |}),
     w3,
     [Invoked (RegisterCommand a commandGif);
      Invoked (RegisterCommand a commandGifs);
      Invoked (LoadPluginConfiguration a zeroConfiguration)]).
Proof.
  intros H1 H2 H3. destruct p as [ap cp gp en].
  unfold OnActivate, OnConfigurationChange, modify, bind, get, put, ret, call.
  cbn -[commandGif commandGifs zeroConfiguration]. rewrite H1.
  cbn -[commandGif commandGifs zeroConfiguration]. rewrite H2.
  cbn -[commandGif commandGifs zeroConfiguration]. rewrite H3. reflexivity.
Qed.

Lemma OnActivate_registers_then_loads_witness :
  run countingWorld (OnActivate (Some (HostAPI 7)) mainPlugin) 0
  = (Some (None, {| api := Some (HostAPI 7); configuration := Some zeroConfiguration;
                    gifProvider := Some (Provider 0); enabled := true |}),
     3,
     [Invoked (RegisterCommand (HostAPI 7) commandGif);
      Invoked (RegisterCommand (HostAPI 7) commandGifs);
      Invoked (LoadPluginConfiguration (HostAPI 7) zeroConfiguration)]).
Proof.
  apply (OnActivate_registers_then_loads (HostAPI 7) mainPlugin nat countingWorld 0 1 2 3
           zeroConfiguration None); reflexivity.
Defined.

(** When the host refuses a command, [OnActivate] returns that error at
    once: after a refused "gif" nothing else is called, after a refused
    "gifs" the configuration is not loaded and "gif" stays registered.  In
    both cases the plugin keeps the configuration it had and is left with the
    handle and the enabled flag set. *)
Theorem OnActivate_stops_at_refused_command
    (a : plugin_API) (p : GiphyPlugin) (W : Type) (h : World W) (w0 w1 : W) (e : error) :
  let p' := {| api := Some a; configuration := configuration p;
               gifProvider := gifProvider p; enabled := true |} in
  (h _ (RegisterCommand a commandGif) w0 = (Some e, w1) ->
   run h (OnActivate (Some a) p) w0
   = (Some (Some e, p'), w1, [Invoked (RegisterCommand a commandGif)]))
  /\ (forall w2,
        h _ (RegisterCommand a commandGif) w0 = (None, w1) ->
        h _ (RegisterCommand a commandGifs) w1 = (Some e, w2) ->
        run h (OnActivate (Some a) p) w0
        = (Some (Some e, p'), w2,
           [Invoked (RegisterCommand a commandGif);
            Invoked (RegisterCommand a commandGifs)])).
Proof.
  intros p'. subst p'. destruct p as [ap cp gp en]. split.
  - intros H1.
    unfold OnActivate, modify, bind, get, put, ret, call.
    cbn -[commandGif commandGifs zeroConfiguration]. rewrite H1. reflexivity.
  - intros w2 H1 H2.
    unfold OnActivate, modify, bind, get, put, ret, call.
    cbn -[commandGif commandGifs zeroConfiguration]. rewrite H1.
    cbn -[commandGif commandGifs zeroConfiguration]. rewrite H2. reflexivity.
Qed.

Lemma OnActivate_stops_at_refused_command_witness :
  run (refusingWorld 0) (OnActivate (Some (HostAPI 7)) mainPlugin) 0
  = (Some (Some "denied",
           {| api := Some (HostAPI 7); configuration := None;
              gifProvider := Some (Provider 0); enabled := true |}),
     1, [Invoked (RegisterCommand (HostAPI 7) commandGif)])
  /\ run (refusingWorld 1) (OnActivate (Some (HostAPI 7)) mainPlugin) 0
     = (Some (Some "denied",
              {| api := Some (HostAPI 7); configuration := None;
                 gifProvider := Some (Provider 0); enabled := true |}),
        2, [Invoked (RegisterCommand (HostAPI 7) commandGif);
            Invoked (RegisterCommand (HostAPI 7) commandGifs)]).
Proof.
  split.
  - destruct (OnActivate_stops_at_refused_command (HostAPI 7) mainPlugin nat
                (refusingWorld 0) 0 1 "denied") as [Hfirst _].
    apply Hfirst. reflexivity.
  - destruct (OnActivate_stops_at_refused_command (HostAPI 7) mainPlugin nat
                (refusingWorld 1) 0 1 "denied") as [_ Hsecond].
    apply (Hsecond 2); reflexivity.
Defined.

(** ** Panics *)

(** [ExecuteCommand] panics in exactly one situation: the plugin is enabled
    and has an API handle, the command line begins with "/gif", and either
    no configuration was ever stored or the provider is [nil].  It then
    panics before any call. *)
Theorem ExecuteCommand_panics_iff (args : CommandArgs) (p : GiphyPlugin) :
  ExecuteCommand args p = Panic
  <-> (enabled p = true /\ api p <> None
       /\ HasPrefix (Command_ args) ("/" ++ triggerGif) = true
       /\ (configuration p = None \/ gifProvider p = None)).
Proof.
  destruct p as [ap cp gp en].
  unfold ExecuteCommand, executeCommandGif, executeCommandGifs, config, bind, get. cbn.
  destruct en; cbn;
    [|split; [discriminate | intros [H _]; discriminate H]].
  destruct ap as [h|]; cbn;
    [|split; [discriminate | intros [_ [H _]]; now elim H]].
  destruct (HasPrefix (Command_ args) ("/" ++ triggerGifs)) eqn:Hs.
  - apply HasPrefix_gifs_gif in Hs. rewrite Hs.
    destruct cp as [c|]; cbn; [destruct gp as [g|]; cbn|].
    + split; [discriminate|]. intros [_ [_ [_ [H|H]]]]; discriminate H.
    + split; [|reflexivity]. intros _. repeat split; try discriminate. now right.
    + split; [|reflexivity]. intros _. repeat split; try discriminate. now left.
  - destruct (HasPrefix (Command_ args) ("/" ++ triggerGif)) eqn:Hg; cbn.
    + destruct cp as [c|]; cbn; [destruct gp as [g|]; cbn|].
      * split; [discriminate|]. intros [_ [_ [_ [H|H]]]]; discriminate H.
      * split; [|reflexivity]. intros _. repeat split; try discriminate. now right.
      * split; [|reflexivity]. intros _. repeat split; try discriminate. now left.
    + split; [discriminate|]. intros [_ [_ [H _]]]. discriminate H.
Qed.

Lemma ExecuteCommand_panics_iff_witness :
  ExecuteCommand (mkCommandArgs "u" "c" "t" "/gif cat")
                 {| api := Some (HostAPI 7); configuration := None;
                    gifProvider := Some (Provider 0); enabled := true |}
  = Panic.
Proof.
  apply (ExecuteCommand_panics_iff (mkCommandArgs "u" "c" "t" "/gif cat")
           {| api := Some (HostAPI 7); configuration := None;
              gifProvider := Some (Provider 0); enabled := true |}).
  repeat split; try discriminate. now left.
Defined.

Lemma ExecuteCommand_without_configuration
    (args : CommandArgs) (a : plugin_API) (g : option gifProviderI) :
  HasPrefix (Command_ args) ("/" ++ triggerGif) = true ->
  ExecuteCommand args {| api := Some a; configuration := None;
                         gifProvider := g; enabled := true |} = Panic.
Proof.
  intros Hg.
  unfold ExecuteCommand, executeCommandGif, executeCommandGifs, config, bind, get. cbn.
  rewrite Hg. now destruct (HasPrefix (Command_ args) ("/" ++ triggerGifs)).
Qed.

(** On the plugin that [main] builds, an activation the host refused leaves
    the enabled flag set and no configuration stored: a command line that
    begins with "/gif" then panics instead of getting the not-ready error,
    and the provider is not called. *)
Theorem command_after_refused_activation_panics
    (a : plugin_API) (args : CommandArgs) (W : Type) (h : World W) (w0 w1 : W) (e : error) :
  HasPrefix (Command_ args) ("/" ++ triggerGif) = true ->
  h _ (RegisterCommand a commandGif) w0 = (Some e, w1) ->
  run h (bind (OnActivate (Some a)) (fun _ => ExecuteCommand args) mainPlugin) w0
  = (None, w1, [Invoked (RegisterCommand a commandGif)]).
Proof.
  intros Hg H1.
  assert (E : ExecuteCommand args
                {| api := Some a; configuration := None;
                   gifProvider := Some (Provider 0); enabled := true |} = Panic).
  { now apply ExecuteCommand_without_configuration. }
  unfold bind at 1. unfold OnActivate, modify, bind, get, put, ret, call, mainPlugin.
  cbn -[commandGif commandGifs ExecuteCommand]. rewrite H1.
  cbn -[commandGif commandGifs ExecuteCommand].
  change (setEnabled true (setApi (Some a)
            {| api := None; configuration := None;
               gifProvider := Some (Provider 0); enabled := false |}))
    with {| api := Some a; configuration := None;
            gifProvider := Some (Provider 0); enabled := true |}.
  rewrite E. reflexivity.
Qed.

Lemma command_after_refused_activation_panics_witness :
  run (refusingWorld 0)
      (bind (OnActivate (Some (HostAPI 7)))
            (fun _ => ExecuteCommand (mkCommandArgs "u" "c" "t" "/gifs cat")) mainPlugin) 0
  = (None, 1, [Invoked (RegisterCommand (HostAPI 7) commandGif)]).
Proof.
  apply (command_after_refused_activation_panics (HostAPI 7)
           (mkCommandArgs "u" "c" "t" "/gifs cat") nat (refusingWorld 0) 0 1 "denied");
    reflexivity.
Defined.

(** ** What the hooks keep *)

Lemma allReturns_bindP {A B : Type} (Q : B -> Prop) (m : Prog A) (f : A -> Prog B) :
  allReturns (fun x => allReturns Q (f x)) m -> allReturns Q (bindP m f).
Proof.
  induction m as [x| |R c k IH]; cbn [allReturns bindP]; auto.
Qed.

Lemma noPanic_bindP {A B : Type} (m : Prog A) (f : A -> Prog B) :
  noPanic m -> allReturns (fun x => noPanic (f x)) m -> noPanic (bindP m f).
Proof.
  induction m as [x| |R c k IH]; cbn [noPanic allReturns bindP]; auto.
Qed.

Lemma allReturns_and {A : Type} (P Q : A -> Prop) (t : Prog A) :
  allReturns P t -> allReturns Q t -> allReturns (fun x => P x /\ Q x) t.
Proof.
  induction t as [x| |R c k IH]; cbn [allReturns]; auto.
Qed.

(** One hook on an equipped plugin: it does not panic, and it returns an
    equipped plugin with the same provider. *)
Lemma serve_equipped (c : HostCall) (p : GiphyPlugin) :
  equipped p ->
  noPanic (serve c p)
  /\ allReturns (fun x => equipped (snd x) /\ gifProvider (snd x) = gifProvider p)
                (serve c p).
Proof.
  destruct p as [[h|] [cfg|] [g|] en]; intros [Ha [Hc Hg]]; cbn in Ha, Hc, Hg;
    try (now elim Ha); try (now elim Hc); try (now elim Hg).
  assert (Heq : forall h' cfg' en',
            equipped {| api := Some h'; configuration := Some cfg';
                        gifProvider := Some g; enabled := en' |}).
  { intros. repeat split; discriminate. }
  destruct c as [a| | |args].
  - cbn. split.
    + intros [e|]; cbn; [exact I|]. intros [e|]; cbn; [exact I|]. intros [c e]. exact I.
    + intros [e|]; cbn; [now split|]. intros [e|]; cbn; [now split|].
      intros [c e]. cbn. now split.
  - cbn. now split.
  - cbn. split; intros [c e]; cbn; [exact I | now split].
  - unfold serve, ExecuteCommand, executeCommandGif, executeCommandGifs, config, bind, get.
    cbn. destruct en; cbn; [|now split].
    destruct (HasPrefix (Command_ args) ("/" ++ triggerGifs));
      [|destruct (HasPrefix (Command_ args) ("/" ++ triggerGif))]; cbn;
      try (now split);
      (split; intros [x [e|]]; cbn; [exact I | exact I | now split | now split]).
Qed.

(** Whatever hooks the host calls, in whatever order and with whatever
    answers from host and provider, a plugin that has an API handle, a stored
    configuration and a provider never panics, still has all three after
    every hook, and keeps the provider it had: no hook clears the handle or
    the configuration, none writes the provider. *)
Theorem equipped_plugin_never_panics (cs : list HostCall) (p : GiphyPlugin) :
  equipped p ->
  noPanic (serveAll cs p)
  /\ allReturns (fun x => equipped (snd x) /\ gifProvider (snd x) = gifProvider p)
                (serveAll cs p).
Proof.
  revert p. induction cs as [|c cs IH]; intros p Hp.
  - cbn. now split.
  - destruct (serve_equipped c p Hp) as [Hn Hr].
    change (serveAll (c :: cs) p)
      with (bindP (serve c p) (fun ap => serveAll cs (snd ap))).
    split.
    + apply noPanic_bindP; [exact Hn|].
      revert Hr. apply allReturns_impl. intros x [Hx _]. now apply IH.
    + apply allReturns_bindP.
      revert Hr. apply allReturns_impl. intros x [Hx Hg].
      destruct (IH (snd x) Hx) as [_ Hr']. revert Hr'. apply allReturns_impl.
      intros y [Hy Hg']. split; [exact Hy | congruence].
Qed.

Lemma equipped_plugin_never_panics_witness :
  let p := readyPlugin (HostAPI 0) zeroConfiguration (Provider 0) in
  let cs := [CallOnDeactivate; CallOnActivate (HostAPI 7); CallOnConfigurationChange;
             CallExecuteCommand (mkCommandArgs "u" "c" "t" "/gifs cat")] in
  noPanic (serveAll cs p)
  /\ allReturns (fun x => equipped (snd x) /\ gifProvider (snd x) = Some (Provider 0))
                (serveAll cs p).
Proof.
  intros p cs. apply (equipped_plugin_never_panics cs p).
  repeat split; discriminate.
Defined.

(** ** Shape of the reply *)

(** Whenever [ExecuteCommand] returns, exactly one of the response and the
    error is non-nil. *)
Theorem reply_is_response_or_error (args : CommandArgs) (p : GiphyPlugin) :
  allReturns
    (fun x => match fst x with
              | (Some _, None) => True
              | (None, Some _) => True
              | _ => False
              end)
    (ExecuteCommand args p).
Proof.
  generalize (proj1 (ExecuteCommand_leaves args p)). apply allReturns_impl.
  intros [[[resp|] [e|]] q] [_ H]; cbn in *; auto.
Qed.

(** ** What the provider is asked *)

Lemma HasPrefix_gif_then (rest : string) :
  HasPrefix ("/" ++ triggerGif ++ rest) ("/" ++ triggerGifs) = HasPrefix rest "s".
Proof.
  unfold HasPrefix, triggerGif, triggerGifs.
  change ("/" ++ "gif" ++ rest) with (String "/" (String "g" (String "i" (String "f" rest)))).
  change ("/" ++ "gifs") with "/gifs".
  rewrite !prefix_cons. reflexivity.
Qed.

(** The dispatcher asks for no separator after the trigger: on a ready
    plugin, whatever follows "/gifs" is, trimmed, the keywords of the
    multi-GIF search, and whatever follows "/gif" and does not begin with "s"
    is, trimmed, the keywords of the single-GIF search. *)
Theorem provider_gets_trimmed_remainder
    (a : plugin_API) (cfg : GiphyPluginConfiguration) (g : gifProviderI)
    (u c t rest : string) :
  (exists k,
     ExecuteCommand (mkCommandArgs u c t ("/" ++ triggerGifs ++ rest)) (readyPlugin a cfg g)
     = Do (getMultipleGifsURL g cfg (Trim rest " ")) k)
  /\ (HasPrefix rest "s" = false ->
      exists k,
        ExecuteCommand (mkCommandArgs u c t ("/" ++ triggerGif ++ rest)) (readyPlugin a cfg g)
        = Do (getGifURL g cfg (Trim rest " ")) k).
Proof.
  split.
  - destruct (ExecuteCommand_gifs a cfg g (mkCommandArgs u c t ("/" ++ triggerGifs ++ rest)))
      as [k [E _]].
    + apply (prefix_app ("/" ++ triggerGifs)).
    + exists k. cbn [Command_] in E. now rewrite getCommandKeywords_leading in E.
  - intros Hs.
    destruct (ExecuteCommand_gif a cfg g (mkCommandArgs u c t ("/" ++ triggerGif ++ rest)))
      as [k [E _]].
    + cbn [Command_]. now rewrite HasPrefix_gif_then.
    + apply (prefix_app ("/" ++ triggerGif)).
    + exists k. cbn [Command_] in E. now rewrite getCommandKeywords_leading in E.
Qed.

Lemma provider_gets_trimmed_remainder_witness :
  exists k,
    ExecuteCommand (mkCommandArgs "u" "c" "t" "/gifted  cats ")
                   (readyPlugin (HostAPI 0) zeroConfiguration (Provider 0))
    = Do (getGifURL (Provider 0) zeroConfiguration "ted  cats") k.
Proof.
  destruct (provider_gets_trimmed_remainder (HostAPI 0) zeroConfiguration (Provider 0)
              "u" "c" "t" "ted  cats ") as [_ Hgif].
  apply Hgif. reflexivity.
Defined.

(** Only the space is trimmed: when the byte after the trigger is not a
    space (a tab, a line feed), the keywords begin with that byte. *)
Theorem keywords_keep_other_whitespace (trigger rest : string) (c : ascii) :
  Ascii.eqb c " " = false ->
  getCommandKeywords ("/" ++ trigger ++ String c rest) trigger
  = String c (TrimRight rest " ").
Proof.
  intros Hc. rewrite getCommandKeywords_leading. unfold Trim.
  cbn [TrimLeft TrimRight inCutset]. rewrite orb_false_r, Hc.
  cbn [TrimRight inCutset]. rewrite orb_false_r, Hc.
  now destruct (TrimRight rest " ").
Qed.

Lemma keywords_keep_other_whitespace_witness :
  getCommandKeywords ("/gif" ++ tab ++ "cat  ") "gif" = tab ++ "cat".
Proof.
  apply (keywords_keep_other_whitespace "gif" "cat  " (ascii_of_nat 9)).
  reflexivity.
Defined.

(** ** The template, for any keywords and URL *)

(** Whatever the keywords and the URL, also when they contain placeholders
    themselves, the response is the leftmost reading of the template with
    each placeholder replaced by its value: what is put in is not expanded
    again. *)
Theorem template_values_are_not_expanded (keywords gifURL template : string) :
  (exists ps,
     render ps = template /\ leftmost ps = true
     /\ applyResponseTemplate template keywords gifURL = expand keywords gifURL ps)
  /\ (forall ps, leftmost ps = true ->
                 applyResponseTemplate (render ps) keywords gifURL
                 = expand keywords gifURL ps)
  /\ (forall ph, applyResponseTemplate (token ph) keywords gifURL
                 = value keywords gifURL ph).
Proof.
  split; [|split].
  - destruct (leftmost_reading template) as [ps [Hr Hl]].
    exists ps. split; [exact Hr|]. split; [exact Hl|].
    rewrite <- Hr. now apply apply_leftmost.
  - apply apply_leftmost.
  - intros ph. rewrite <- (append_nil_r (token ph)), apply_token.
    now rewrite apply_empty, append_nil_r.
Qed.

Lemma template_values_are_not_expanded_witness :
  applyResponseTemplate "##KEYWORDS##" "##GIF_URL##" "http://x/y.gif" = "##GIF_URL##".
Proof.
  destruct (template_values_are_not_expanded "##GIF_URL##" "http://x/y.gif" "")
    as [_ [Hread _]].
  apply (Hread [Tok KEYWORDS]). reflexivity.
Defined.

(** A template without number sign has no placeholder: the response is the
    template as it is, the keywords and the URL are dropped; the empty
    template gives the empty text. *)
Theorem template_without_hash_is_kept (keywords gifURL template : string) :
  noHash template = true ->
  applyResponseTemplate template keywords gifURL = template.
Proof.
  intros H. rewrite <- (append_nil_r template) at 1.
  rewrite apply_noHash by exact H. now rewrite apply_empty, append_nil_r.
Qed.

Lemma template_without_hash_is_kept_witness :
  applyResponseTemplate "" "cat" "http://x/y.gif" = "".
Proof.
  apply (template_without_hash_is_kept "cat" "http://x/y.gif" ""). reflexivity.
Defined.

(** ** Reload, then a command *)

(** A command served after a reload works on what the reload stored, error
    or not: the provider gets the struct the host left, and the text is made
    from its template.  After a load that failed on a zero-valued struct the
    template is empty, and so is the text of the post: the URL found is
    dropped. *)
Theorem command_uses_reloaded_configuration
    (a : plugin_API) (old loaded : GiphyPluginConfiguration) (g : gifProviderI)
    (args : CommandArgs) (W : Type) (h : World W) (w0 w1 w2 : W)
    (err : option error) (url : string) :
  let keywords := getCommandKeywords (Command_ args) triggerGif in
  HasPrefix (Command_ args) ("/" ++ triggerGifs) = false ->
  HasPrefix (Command_ args) ("/" ++ triggerGif) = true ->
  h _ (LoadPluginConfiguration a zeroConfiguration) w0 = ((loaded, err), w1) ->
  h _ (getGifURL g loaded keywords) w1 = ((url, None), w2) ->
  run h (bind OnConfigurationChange (fun _ => ExecuteCommand args) (readyPlugin a old g)) w0
  = (Some ((Some {| ResponseType := COMMAND_RESPONSE_TYPE_IN_CHANNEL;
                    Text := applyResponseTemplate (ResponseTemplate loaded) keywords url |},
            None), readyPlugin a loaded g),
     w2,
     [Invoked (LoadPluginConfiguration a zeroConfiguration);
      Invoked (getGifURL g loaded keywords)])
  /\ (loaded = zeroConfiguration ->
      applyResponseTemplate (ResponseTemplate loaded) keywords url = "").
Proof.
  intros keywords Hs Hg H1 H2. split; [|now intros ->].
  destruct (ExecuteCommand_gif a loaded g args Hs Hg) as [k [E [Hok _]]].
  fold keywords in E, Hok.
  unfold bind at 1. unfold OnConfigurationChange, modify, bind, get, put, ret, call, readyPlugin.
  cbn -[zeroConfiguration ExecuteCommand]. rewrite H1.
  cbn -[zeroConfiguration ExecuteCommand].
  change (storeConfiguration loaded
            {| api := Some a; configuration := Some old;
               gifProvider := Some g; enabled := true |})
    with (readyPlugin a loaded g).
  rewrite E. cbn [run]. rewrite H2, Hok. reflexivity.
Qed.

Lemma command_uses_reloaded_configuration_witness :
  let p := readyPlugin (HostAPI 0)
             (mkConfiguration "g" "en" "original" "##KEYWORDS##: ##GIF_URL##" "key")
             (Provider 0) in
  run settingsLostWorld
      (bind OnConfigurationChange
            (fun _ => ExecuteCommand (mkCommandArgs "u" "c" "t" "/gif cat")) p) 0
  = (Some ((Some {| ResponseType := "in_channel"; Text := "" |}, None),
           readyPlugin (HostAPI 0) zeroConfiguration (Provider 0)),
     2,
     [Invoked (LoadPluginConfiguration (HostAPI 0) zeroConfiguration);
      Invoked (getGifURL (Provider 0) zeroConfiguration "cat")]).
Proof.
  intros p.
  apply (command_uses_reloaded_configuration (HostAPI 0)
           (mkConfiguration "g" "en" "original" "##KEYWORDS##: ##GIF_URL##" "key")
           zeroConfiguration (Provider 0) (mkCommandArgs "u" "c" "t" "/gif cat")
           nat settingsLostWorld 0 1 2 (Some "no settings") "http://x/y.gif");
    reflexivity.
Defined.

(** ** Tabs in the multi-GIF text *)

Lemma countByte_app (b : ascii) (x y : string) :
  countByte b (x ++ y) = countByte b x + countByte b y.
Proof.
  induction x as [|c x IH]; [reflexivity|].
  change (String c x ++ y) with (String c (x ++ y)).
  cbn [countByte]. rewrite IH. lia.
Qed.

Lemma countByte_concat (b : ascii) (sep : string) (xs : list string) :
  Forall (fun x => countByte b x = 0) xs ->
  countByte b (String.concat sep xs) = Nat.pred (List.length xs) * countByte b sep.
Proof.
  induction 1 as [|x xs Hx Hxs IH]; [reflexivity|].
  destruct xs as [|y xs].
  - cbn [String.concat List.length Nat.pred]. rewrite Hx. lia.
  - change (String.concat sep (x :: y :: xs))
      with (x ++ sep ++ String.concat sep (y :: xs)).
    rewrite !countByte_app, Hx, IH. cbn [List.length Nat.pred]. lia.
Qed.

(** When neither the keywords nor any URL contains a tab, the text has one
    tab less than there are URLs, and none for an empty list: the tabs are
    the separators and nothing else. *)
Theorem gifs_text_tab_count (keywords : string) (urls : list string) :
  countByte (ascii_of_nat 9) keywords = 0 ->
  Forall (fun u => countByte (ascii_of_nat 9) u = 0) urls ->
  countByte (ascii_of_nat 9) (gifsText keywords urls) = Nat.pred (List.length urls).
Proof.
  intros Hk Hu. rewrite gifsText_joined, countByte_app.
  rewrite (countByte_concat _ tab).
  - unfold suggestionsHeader. rewrite !countByte_app, Hk, length_map.
    cbn. lia.
  - apply Forall_map. revert Hu. apply Forall_impl. intros u Hu.
    unfold gifLink. rewrite !countByte_app, Hk, Hu. reflexivity.
Qed.

Lemma gifs_text_tab_count_witness :
  countByte (ascii_of_nat 9)
            (gifsText "happy kitty" ["http://x/1.gif"; "http://x/2.gif"; "http://x/3.gif"])
  = 2.
Proof.
  apply (gifs_text_tab_count "happy kitty"
           ["http://x/1.gif"; "http://x/2.gif"; "http://x/3.gif"]).
  - reflexivity.
  - repeat constructor.
Defined.

(** A search that finds nothing is not an error: when the provider answers a
    "/gifs" command with no URL and no error, the caller gets an ephemeral
    post that has the header and nothing else. *)
Theorem no_gif_found_gives_header_only
    (a : plugin_API) (cfg : GiphyPluginConfiguration) (g : gifProviderI)
    (args : CommandArgs) (W : Type) (h : World W) (w w1 : W) :
  let keywords := getCommandKeywords (Command_ args) triggerGifs in
  HasPrefix (Command_ args) ("/" ++ triggerGifs) = true ->
  h _ (getMultipleGifsURL g cfg keywords) w = (([], None), w1) ->
  run h (ExecuteCommand args (readyPlugin a cfg g)) w
  = (Some ((Some {| ResponseType := COMMAND_RESPONSE_TYPE_EPHEMERAL;
                    Text := " *Suggestions for '" ++ keywords ++ "':*" |},
            None), readyPlugin a cfg g),
     w1, [Invoked (getMultipleGifsURL g cfg keywords)]).
Proof.
  intros keywords Hs Hh.
  destruct (ExecuteCommand_gifs a cfg g args Hs) as [k [E [Hok _]]].
  fold keywords in E, Hok. rewrite E. cbn [run]. rewrite Hh, Hok. reflexivity.
Qed.

Lemma no_gif_found_gives_header_only_witness :
  run (refusingWorld 0)
      (ExecuteCommand (mkCommandArgs "u" "c" "t" "/gifs zzz")
                      (readyPlugin (HostAPI 0) zeroConfiguration (Provider 0))) 0
  = (Some ((Some {| ResponseType := "ephemeral"; Text := " *Suggestions for 'zzz':*" |},
            None), readyPlugin (HostAPI 0) zeroConfiguration (Provider 0)),
     1, [Invoked (getMultipleGifsURL (Provider 0) zeroConfiguration "zzz")]).
Proof.
  apply (no_gif_found_gives_header_only (HostAPI 0) zeroConfiguration (Provider 0)
           (mkCommandArgs "u" "c" "t" "/gifs zzz") nat (refusingWorld 0) 0 1);
    reflexivity.
Defined.

(** ** Stored snapshots stay *)

Section StoredForGood.

Variable threads : nat -> Goroutine.

Lemma stored_step (i : nat) (s : Sys) (x : nat * GiphyPluginConfiguration) :
  In x (stored s) -> In x (stored (step i s)).
Proof.
  intros H. unfold step.
  destruct (pool s i) as [|src fs|l src done [|f todo]|fs|l [|f todo] seen|];
    try exact H; cbn [stored]; try (now right).
  destruct (holder s); exact H.
Qed.

Lemma stored_exec (schedule : list nat) (s : Sys) (x : nat * GiphyPluginConfiguration) :
  In x (stored s) -> In x (stored (exec schedule s)).
Proof.
  revert s. induction schedule as [|i rest IH]; intros s H; [exact H|].
  cbn [exec fold_left]. apply IH. now apply stored_step.
Qed.

Lemma exec_app (s1 s2 : list nat) (s : Sys) :
  exec (s1 ++ s2) s = exec s2 (exec s1 s).
Proof. unfold exec. apply fold_left_app. Qed.

End StoredForGood.

(** Whatever the goroutines do afterwards, a struct whose pointer was stored
    keeps the content it had at the [Store]: later reloads write to structs
    of their own.  And once something was stored the holder is never empty
    again: a command that loads the configuration from then on does not
    panic. *)
Theorem stored_snapshot_is_never_written
    (threads : nat -> Goroutine) (before after : list nat) :
  (forall i, fresh (threads i) = true) ->
  let s := exec before (start threads) in
  let s' := exec (before ++ after) (start threads) in
  (forall l v, In (l, v) (stored s) -> In (l, v) (stored s') /\ heap s' l = v)
  /\ (holder s <> None -> holder s' <> None)
  /\ (forall i fs, holder s' <> None -> pool s' i = ReadStart fs ->
                   exists l, holder s' = Some l /\ pool (step i s') i = Reading l fs []).
Proof.
  intros Hf s s'.
  assert (Hs : Inv threads s) by (apply Inv_exec, Inv_start, Hf).
  assert (Hs' : Inv threads s') by (apply Inv_exec, Inv_start, Hf).
  assert (Hin : forall x, In x (stored s) -> In x (stored s')).
  { intros x Hx. unfold s'. rewrite exec_app. now apply stored_exec. }
  split; [|split].
  - intros l v H. split; [now apply Hin|].
    now destruct (inv_stored _ _ Hs' l v (Hin _ H)) as [_ [Hv _]].
  - rewrite (inv_latest _ _ Hs), (inv_latest _ _ Hs').
    destruct (stored s) as [|[l v] rest] eqn:E; [intros H; now elim H|].
    intros _. destruct (stored s') as [|[l' v'] rest'] eqn:E'; [|discriminate].
    exfalso. apply (Hin (l, v)). now left.
  - intros i fs Hh Hp. destruct (holder s') as [l|] eqn:El; [|now elim Hh].
    exists l. split; [reflexivity|]. unfold step. rewrite Hp, El. cbn [pool].
    apply upd_same.
Qed.

Lemma stored_snapshot_is_never_written_witness :
  let s' := exec ([0; 0; 0; 0; 0; 0; 0] ++ [1; 2; 2; 2; 1; 2; 2; 2; 2; 1])
                 (start threeGoroutines) in
  In (0, settings1) (stored s') /\ heap s' 0 = settings1.
Proof.
  intros s'.
  assert (Hfresh : forall i, fresh (threeGoroutines i) = true).
  { intros [|[|[|i]]]; reflexivity. }
  destruct (stored_snapshot_is_never_written threeGoroutines
              [0; 0; 0; 0; 0; 0; 0] [1; 2; 2; 2; 1; 2; 2; 2; 2; 1] Hfresh)
    as [Hkeep _].
  apply (Hkeep 0 settings1). left. reflexivity.
Defined.

(** ** What a reader sees: the snapshot current at its Load *)

Section ReaderAndReload.

Variable threads : nat -> Goroutine.

Lemma pool_step_other (i j : nat) (s : Sys) :
  j <> i -> pool (step j s) i = pool s i.
Proof.
  intros H. unfold step.
  destruct (pool s j) as [|src fs|l src done [|f todo]|fs|l [|f todo] seen|];
    try reflexivity; try (cbn [pool]; apply upd_other; congruence).
  destruct (holder s); cbn [pool]; apply upd_other; congruence.
Qed.

Lemma panicked_for_good (i : nat) (schedule : list nat) (s : Sys) :
  pool s i = ReadPanicked -> pool (exec schedule s) i = ReadPanicked.
Proof.
  revert s. induction schedule as [|j rest IH]; intros s H; [exact H|].
  cbn [exec fold_left]. apply IH.
  destruct (Nat.eq_dec j i) as [->|Hne].
  - unfold step. now rewrite H.
  - now rewrite pool_step_other.
Qed.

(** A step changes what a Load would return only if it is a Store, and then
    to the whole struct that reload has filled. *)
Lemma view_step (j : nat) (s : Sys) :
  Inv threads s ->
  view (step j s) = view s
  \/ exists l src done,
       pool s j = ReloadLoading l src done []
       /\ threads j = ReloadStart src (rev done)
       /\ view (step j s) = Some (writeFields src (rev done) zeroConfiguration).
Proof.
  intros [Hst Hs Hl Ho Hh Hlatest Hr]. unfold step.
  destruct (pool s j) as [|src fs|l src done [|f todo]|fs|l [|f todo] seen|] eqn:Ej;
    try (left; reflexivity).
  - left. unfold view. cbn [holder heap].
    destruct (holder s) as [l|] eqn:Eh; [|reflexivity].
    destruct (Hh l eq_refl) as [v Hin]. destruct (Hst _ _ Hin) as [Hlt _].
    rewrite upd_other; [reflexivity | lia].
  - right. destruct (Hl _ _ _ _ _ Ej) as [_ [_ [Hv Ht]]].
    exists l, src, done. split; [reflexivity|]. split.
    + now rewrite app_nil_r in Ht.
    + unfold view. cbn [holder heap]. now rewrite Hv.
  - left. unfold view. cbn [holder heap].
    destruct (holder s) as [l'|] eqn:Eh; [|reflexivity].
    destruct (Hh l' eq_refl) as [v Hin]. destruct (Hl _ _ _ _ _ Ej) as [_ [Hn _]].
    rewrite upd_other; [reflexivity|]. intros ->. now apply (Hn v).
  - left. unfold view. destruct (holder s); reflexivity.
Qed.

(** From its Load on, a reader reads fields of the struct it loaded. *)
Lemma reading_after_load (i l : nat) (c : GiphyPluginConfiguration) (fs : list Field)
    (schedule : list nat) (s : Sys) :
  Inv threads s ->
  In (l, c) (stored s) ->
  (exists done todo, (done ++ todo)%list = fs /\ pool s i = Reading l todo (fieldsRead c done)) ->
  Inv threads (exec schedule s) /\ In (l, c) (stored (exec schedule s))
  /\ exists done todo,
       (done ++ todo)%list = fs
       /\ pool (exec schedule s) i = Reading l todo (fieldsRead c done).
Proof.
  revert s. induction schedule as [|j rest IH]; intros s HI Hin Hp;
    [split; [exact HI | split; [exact Hin | exact Hp]]|].
  cbn [exec fold_left]. apply IH.
  - now apply Inv_step.
  - now apply stored_step.
  - destruct Hp as [done [todo [E Hp]]].
    destruct (Nat.eq_dec j i) as [->|Hne].
    + unfold step. rewrite Hp. destruct todo as [|f todo].
      * exists done, []. now split.
      * exists (done ++ [f])%list, todo. split; [now rewrite <- app_assoc|].
        cbn [pool]. rewrite upd_same.
        destruct (inv_stored _ _ HI _ _ Hin) as [_ [-> _]].
        unfold fieldsRead. now rewrite map_app, rev_app_distr.
    + exists done, todo. split; [exact E|]. now rewrite pool_step_other.
Qed.

(** A reload that runs alone from its first write to its Store. *)
Lemma reload_alone (i l : nat) (src : GiphyPluginConfiguration) (todo : list Field) :
  forall (done : list Field) (s : Sys),
    pool s i = ReloadLoading l src done todo ->
    let s' := exec (repeat i (S (List.length todo))) s in
    holder s' = Some l /\ heap s' l = writeFields src todo (heap s l).
Proof.
  induction todo as [|f todo IH]; intros done s Hp.
  - cbn [List.length repeat exec fold_left]. unfold step. rewrite Hp. now split.
  - change (exec (repeat i (S (List.length (f :: todo)))) s)
      with (exec (repeat i (S (List.length todo))) (step i s)).
    assert (Hp' : pool (step i s) i = ReloadLoading l src (f :: done) todo).
    { unfold step. rewrite Hp. cbn [pool]. apply upd_same. }
    destruct (IH _ _ Hp') as [Hh Hv]. split; [exact Hh|].
    cbv zeta in Hv. rewrite Hv. unfold step. rewrite Hp. cbn [heap].
    now rewrite upd_same.
Qed.

Lemma reload_alone_from_start (i : nat) (src : GiphyPluginConfiguration) (fs : list Field)
    (s : Sys) :
  pool s i = ReloadStart src fs ->
  view (exec (repeat i (2 + List.length fs)) s)
  = Some (writeFields src fs zeroConfiguration).
Proof.
  intros Hp.
  change (exec (repeat i (2 + List.length fs)) s)
    with (exec (repeat i (S (List.length fs))) (step i s)).
  assert (Hp' : pool (step i s) i = ReloadLoading (next s) src [] fs).
  { unfold step. rewrite Hp. cbn [pool]. apply upd_same. }
  destruct (reload_alone _ _ _ _ _ _ Hp') as [Hh Hv]. cbv zeta in Hh, Hv.
  unfold view. rewrite Hh, Hv. unfold step. rewrite Hp. cbn [heap].
  now rewrite upd_same.
Qed.

End ReaderAndReload.

(** Claim C8: start from a plugin in which nothing was stored, with any
    number of goroutines about to reload the configuration or to serve a
    command, and let them take their steps in any order.
    - What a Load would return changes only at a Store, in that one step, from
      the snapshot stored before to the whole struct the reload has filled:
      no state in between shows a mix.
    - A reader gets at its Load the snapshot the holder has at that moment,
      the one stored last before it; whatever runs afterwards, every field
      it reads through the pointer is a field of that snapshot, which is what
      one whole reload wrote into a zero-valued struct.  So a reader that
      loads before the Store of a reload reads the old snapshot in full, and
      one that loads after it the new one in full.  Before the first Store
      the Load panics.
    - The steps are those of the hooks: a reload running alone leaves in the
      holder what [OnConfigurationChange] stores when the host fills the
      struct with the same fields, and a reader's Load returns what [config]
      returns. *)
Theorem reader_sees_snapshot_current_at_its_load (threads : nat -> Goroutine) :
  (forall j, fresh (threads j) = true) ->
  (forall schedule j,
     let s := exec schedule (start threads) in
     view (step j s) = view s
     \/ exists l src done,
          pool s j = ReloadLoading l src done []
          /\ threads j = ReloadStart src (rev done)
          /\ view (step j s) = Some (writeFields src (rev done) zeroConfiguration))
  /\ (forall before after i fs,
        let s0 := exec before (start threads) in
        let s := exec (before ++ i :: after) (start threads) in
        pool s0 i = ReadStart fs ->
        match view s0 with
        | None => pool s i = ReadPanicked
        | Some snapshot =>
            exists l done todo,
              holder s0 = Some l
              /\ (exists older, stored s0 = (l, snapshot) :: older)
              /\ (done ++ todo)%list = fs
              /\ pool s i = Reading l todo (fieldsRead snapshot done)
              /\ heap s l = snapshot
              /\ exists j src fs',
                   threads j = ReloadStart src fs'
                   /\ snapshot = writeFields src fs' zeroConfiguration
        end)
  /\ (forall schedule i l todo seen,
        let s := exec schedule (start threads) in
        pool s i = Reading l todo seen ->
        exists snapshot,
          In (l, snapshot) (stored s) /\ heap s l = snapshot
          /\ forall f x, In (f, x) seen -> x = getField f snapshot)
  /\ (forall (s : Sys) i src fs (p : GiphyPlugin) a (W : Type) (h : World W) (w w1 : W) err,
        pool s i = ReloadStart src fs ->
        api p = Some a ->
        h _ (LoadPluginConfiguration a zeroConfiguration) w
        = ((writeFields src fs zeroConfiguration, err), w1) ->
        exists p',
          run h (OnConfigurationChange p) w
          = (Some (err, p'), w1, [Invoked (LoadPluginConfiguration a zeroConfiguration)])
          /\ configuration p' = view (exec (repeat i (2 + List.length fs)) s))
  /\ (forall (s : Sys) i fs (p : GiphyPlugin),
        configuration p = view s ->
        pool s i = ReadStart fs ->
        match config p with
        | Ret (c, _) =>
            exists l, holder s = Some l /\ heap s l = c
                      /\ pool (step i s) i = Reading l fs []
        | Panic => pool (step i s) i = ReadPanicked
        | Do _ _ => False
        end).
Proof.
  intros Hf.
  assert (Hreach : forall schedule, Inv threads (exec schedule (start threads))).
  { intros schedule. apply Inv_exec, Inv_start, Hf. }
  split; [|split; [|split; [|split]]].
  - intros schedule j s. apply view_step, Hreach.
  - intros before after i fs s0 s Hp.
    pose proof (Hreach before) as H0. fold s0 in H0.
    assert (Es : s = exec after (step i s0)).
    { unfold s, s0. now rewrite exec_app. }
    unfold view. destruct (holder s0) as [l|] eqn:Eh.
    + pose proof (inv_latest _ _ H0) as Hlatest. rewrite Eh in Hlatest.
      destruct (stored s0) as [|[l' v] older] eqn:Est; [discriminate|].
      inversion Hlatest; subst l'.
      assert (Hin : In (l, v) (stored s0)) by (rewrite Est; now left).
      destruct (inv_stored _ _ H0 _ _ Hin) as [_ [Hv Hc]]. rewrite Hv.
      assert (Hp1 : pool (step i s0) i = Reading l fs []).
      { unfold step. rewrite Hp, Eh. cbn [pool]. apply upd_same. }
      assert (Hst1 : stored (step i s0) = stored s0).
      { unfold step. rewrite Hp, Eh. reflexivity. }
      destruct (reading_after_load threads i l v fs after (step i s0))
        as [HI [Hin' [done [todo [E Hpool]]]]].
      * now apply Inv_step.
      * now rewrite Hst1.
      * exists [], fs. now split.
      * rewrite <- Es in HI, Hin', Hpool.
        exists l, done, todo. split; [reflexivity|]. split; [now exists older|].
        split; [exact E|]. split; [exact Hpool|]. split; [|exact Hc].
        now destruct (inv_stored _ _ HI _ _ Hin') as [_ [Hv' _]].
    + rewrite Es. apply panicked_for_good. unfold step. rewrite Hp, Eh.
      cbn [pool]. apply upd_same.
  - intros schedule i l todo seen s E.
    pose proof (Hreach schedule) as H. fold s in H.
    destruct (inv_reading _ _ H _ _ _ _ E) as [v [Hin Hseen]].
    destruct (inv_stored _ _ H _ _ Hin) as [_ [Hv _]].
    exists v. now repeat split.
  - intros s i src fs p a W h w w1 err Hp Ha Hh.
    exists (storeConfiguration (writeFields src fs zeroConfiguration) p). split.
    + destruct p as [ap cp gp en]. cbn [api] in Ha. subst ap.
      unfold OnConfigurationChange, modify, bind, get, put, ret, call.
      cbn -[zeroConfiguration writeFields]. rewrite Hh. reflexivity.
    + rewrite (reload_alone_from_start i src fs s Hp). reflexivity.
  - intros s i fs p Hc Hp. unfold config, bind, get, ret, panic. cbn [bindP fst snd].
    rewrite Hc. unfold view. destruct (holder s) as [l|] eqn:Eh; cbn [bindP fst snd].
    + exists l. split; [reflexivity|]. split; [reflexivity|].
      unfold step. rewrite Hp, Eh. cbn [pool]. apply upd_same.
    + unfold step. rewrite Hp, Eh. cbn [pool]. apply upd_same.
Qed.

Lemma reader_sees_snapshot_current_at_its_load_witness :
  let old := exec (loadBeforeStore ++ 1 :: storeThenReads) (start threeGoroutines) in
  let new := exec (loadAfterStore ++ 1 :: [1; 1]) (start threeGoroutines) in
  (view old = Some settings2
   /\ exists l done todo,
        holder (exec loadBeforeStore (start threeGoroutines)) = Some l
        /\ (exists older,
              stored (exec loadBeforeStore (start threeGoroutines))
              = (l, settings1) :: older)
        /\ (done ++ todo)%list = [FRating; FAPIKey]
        /\ pool old 1 = Reading l todo (fieldsRead settings1 done)
        /\ heap old l = settings1
        /\ exists j src fs',
             threeGoroutines j = ReloadStart src fs'
             /\ settings1 = writeFields src fs' zeroConfiguration)
  /\ (pool old 1 = Reading 0 [] [(FAPIKey, "key-1"); (FRating, "g")]
      /\ pool new 1 = Reading 1 [] [(FAPIKey, "key-2"); (FRating, "pg-13")])
  /\ exists l done todo,
       holder (exec loadAfterStore (start threeGoroutines)) = Some l
       /\ (exists older,
             stored (exec loadAfterStore (start threeGoroutines))
             = (l, settings2) :: older)
       /\ (done ++ todo)%list = [FRating; FAPIKey]
       /\ pool new 1 = Reading l todo (fieldsRead settings2 done)
       /\ heap new l = settings2
       /\ exists j src fs',
            threeGoroutines j = ReloadStart src fs'
            /\ settings2 = writeFields src fs' zeroConfiguration.
Proof.
  intros old new.
  assert (Hfresh : forall i, fresh (threeGoroutines i) = true).
  { intros [|[|[|i]]]; reflexivity. }
  destruct (reader_sees_snapshot_current_at_its_load threeGoroutines Hfresh)
    as [_ [Hload _]].
  split; [split; [reflexivity|]|split; [split; reflexivity|]].
  - exact (Hload loadBeforeStore storeThenReads 1 [FRating; FAPIKey] eq_refl).
  - exact (Hload loadAfterStore [1; 1] 1 [FRating; FAPIKey] eq_refl).
Defined.
